(** * trives-hooks: the form-validation engine of [useFormValidation]

    A shallow embedding of [useFormValidation] (the second module of
    [src/hooks/useCopy.ts]): the field configuration, the value and
    error stores, the rule function [validateField] and the three
    operations [handleChange] (the spec's [update]), [validateAll] and
    [reset].

    Modelling conventions.
    - A JS string is a [string]; [length] counts its characters and the
      regular expressions below read it character by character.
    - A JS object used as a dictionary ([FormConfig], [FormValues],
      [FormErrors]) is a [gmap string _] holding its own properties.
      The stores are created by object literals, so their prototype
      is [Object.prototype]: a read [o[k]] of a key that is not an
      own property finds the member of [Object.prototype] of that
      name when there is one ([get]), and an assignment [o[k] = v]
      of a string or [null] under the key [__proto__] creates no
      property ([assign]).
    - The numeric bounds of a [FieldConfig] are integers ([Z]).
    - A runtime [TypeError] (reading a property of [undefined]) is the
      [Throw] outcome of the [completion] type.
    - The hook's state is the pair of stores; an operation maps the
      state of the render in which it is called to the state of the
      next render. *)

From Stdlib Require Import ZArith Ascii String List Bool Lia.
From stdpp Require Import gmap strings list fin_maps pretty.

Local Open Scope string_scope.

(** ** Completions: normal results and thrown exceptions *)

Inductive completion (A : Type) : Type :=
| Normal (a : A)
| Throw.
Arguments Normal {A} a.
Arguments Throw {A}.

#[global] Instance completion_ret : MRet completion := @Normal.

#[global] Instance completion_bind : MBind completion :=
  fun A B (k : A -> completion B) (c : completion A) =>
    match c with
    | Normal a => k a
    | Throw => Throw
    end.

(** ** JavaScript values that flow through the validator *)

(** The [value] argument: a string, or [undefined] ([None]) when it
    comes from a store lookup that misses. *)
Definition jsvalue := option string.

Definition truthy (v : jsvalue) : bool :=
  match v with
  | Some s => negb (String.eqb s "")
  | None => false
  end.

(** [ToString]: what [RegExp.prototype.test] makes of its argument. *)
Definition ToString (v : jsvalue) : string :=
  match v with
  | Some s => s
  | None => "undefined"
  end.

(** [value.length]: a [TypeError] on [undefined]. *)
Definition get_length (v : jsvalue) : completion nat :=
  match v with
  | Some s => Normal (String.length s)
  | None => Throw
  end.

(** [a || b] on an optional string: the empty string is falsy. *)
Definition or_string (a : option string) (b : string) : string :=
  if truthy a then ToString a else b.

(** Truthiness of an optional boolean property. *)
Definition truthy_bool (b : option bool) : bool :=
  match b with Some true => true | _ => false end.

(** Template-literal rendering of an optional number. *)
Definition show_num (n : option Z) : string :=
  match n with Some k => pretty k | None => "undefined" end.

(** ** Regular expressions *)

Module RegExp.

(** Character classes are predicates on characters. *)
Definition charclass := ascii -> bool.

Definition range (lo hi : ascii) : charclass :=
  fun c => (N_of_ascii lo <=? N_of_ascii c)%N && (N_of_ascii c <=? N_of_ascii hi)%N.

Fixpoint one_of (s : string) : charclass :=
  fun c =>
    match s with
    | EmptyString => false
    | String d s' => Ascii.eqb c d || one_of s' c
    end.

Definition union (p q : charclass) : charclass := fun c => p c || q c.
Definition complement (p : charclass) : charclass := fun c => negb (p c).
Definition any : charclass := fun _ => true.

Definition lower : charclass := range "a" "z".
Definition upper : charclass := range "A" "Z".
Definition digit : charclass := range "0" "9".      (* [0-9] and \d *)
Definition alnum : charclass := union lower (union upper digit).

Inductive regex : Type :=
| Never
| Eps
| Class (p : charclass)
| Cat (r s : regex)
| Alt (r s : regex)
| Star (r : regex).

Definition plus (r : regex) : regex := Cat r (Star r).          (* r+    *)
Definition two_or_more (r : regex) : regex := Cat r (plus r).   (* r{2,} *)

Fixpoint nullable (r : regex) : bool :=
  match r with
  | Never => false
  | Eps => true
  | Class _ => false
  | Cat r s => nullable r && nullable s
  | Alt r s => nullable r || nullable s
  | Star _ => true
  end.

(** Brzozowski derivative: the residual of [r] after reading [c]. *)
Fixpoint deriv (c : ascii) (r : regex) : regex :=
  match r with
  | Never => Never
  | Eps => Never
  | Class p => if p c then Eps else Never
  | Cat r s =>
      if nullable r then Alt (Cat (deriv c r) s) (deriv c s)
      else Cat (deriv c r) s
  | Alt r s => Alt (deriv c r) (deriv c s)
  | Star r => Cat (deriv c r) (Star r)
  end.

(** [/^r$/.test(s)]: the whole string is in the language of [r]. *)
Fixpoint test_anchored (r : regex) (s : string) : bool :=
  match s with
  | EmptyString => nullable r
  | String c s' => test_anchored (deriv c r) s'
  end.

(** [/r/.test(s)]: some substring is in the language of [r]. *)
Definition test (r : regex) (s : string) : bool :=
  test_anchored (Cat (Star (Class any)) (Cat r (Star (Class any)))) s.

(** [s.match(/[cls]/g)]: every character in the class is one match;
    the result is [null] when there is none. *)
Fixpoint matches_of (p : charclass) (s : string) : list string :=
  match s with
  | EmptyString => []
  | String c s' =>
      if p c then String c EmptyString :: matches_of p s' else matches_of p s'
  end.

Definition match_global (p : charclass) (v : jsvalue) : completion (option (list string)) :=
  match v with
  | None => Throw
  | Some s =>
      match matches_of p s with
      | [] => Normal None
      | ms => Normal (Some ms)
      end
  end.

End RegExp.

(** [m?.length || 0] for the result [m] of a global match. *)
Definition length_or_zero (m : option (list string)) : nat :=
  match m with
  | Some ms => List.length ms
  | None => 0
  end.

(** ** Data model *)

Inductive FieldType : Type :=
| email | password | repeatPassword | text | number | textarea.

#[global] Instance FieldType_eq_dec : EqDecision FieldType.
Proof. solve_decision. Defined.

Record FieldConfig : Type := mkField {
  type : FieldType;
  label : option string;
  required : option bool;
  minLength : option Z;
  maxLength : option Z;
  minSpecialChars : option Z;
  minUppercase : option Z;
  minNumbers : option Z;
  matchField : option string          (* for repeatPassword *)
}.

(** A field of the given type with every optional property absent. *)
Definition plain (t : FieldType) : FieldConfig :=
  mkField t None None None None None None None None.

(** [FormErrors]: a key maps to a message ([Some msg]) or to [null]
    ([None]); a key without entry is absent from the map. *)
Record FormState : Type := mkState {
  values : gmap string string;
  errors : gmap string (option string)
}.

(** [Object.keys(o)].  The enumeration order of a [gmap] is its own;
    no result below depends on it. *)
Definition ObjectKeys {V} (o : gmap string V) : list string :=
  (map_to_list o).*1.

(** ** Object.prototype

    What a store inherits.  [__proto__] is an accessor whose getter
    returns [Object.prototype] itself; the other members are built-in
    functions, given here with their name and their [length]. *)
Inductive inherited : Type :=
| ObjectPrototype
| Builtin (name : string) (arity : nat).

#[global] Instance inherited_eq_dec : EqDecision inherited.
Proof. solve_decision. Defined.

Definition ObjectPrototypeMembers : list (string * inherited) :=
  [ ("__proto__", ObjectPrototype);
    ("constructor", Builtin "Object" 1);
    ("hasOwnProperty", Builtin "hasOwnProperty" 1);
    ("isPrototypeOf", Builtin "isPrototypeOf" 1);
    ("propertyIsEnumerable", Builtin "propertyIsEnumerable" 1);
    ("toLocaleString", Builtin "toLocaleString" 0);
    ("toString", Builtin "toString" 0);
    ("valueOf", Builtin "valueOf" 0);
    ("__defineGetter__", Builtin "__defineGetter__" 2);
    ("__defineSetter__", Builtin "__defineSetter__" 2);
    ("__lookupGetter__", Builtin "__lookupGetter__" 1);
    ("__lookupSetter__", Builtin "__lookupSetter__" 1) ].

Fixpoint member (name : string) (l : list (string * inherited)) : option inherited :=
  match l with
  | [] => None
  | (k, v) :: rest => if String.eqb name k then Some v else member name rest
  end.

(** The result of a read [o[name]] on a store of strings. *)
Inductive property : Type :=
| Own (s : string)
| Inherited (o : inherited)
| Undefined.

#[global] Instance property_eq_dec : EqDecision property.
Proof. solve_decision. Defined.

Definition get (o : gmap string string) (name : string) : property :=
  match o !! name with
  | Some s => Own s
  | None =>
      match member name ObjectPrototypeMembers with
      | Some v => Inherited v
      | None => Undefined
      end
  end.

(** [o[key] = v] for a string or [null] [v]: under [__proto__] the
    setter inherited from [Object.prototype] runs and no own property
    is created; any other key becomes an own property.  ([Object.keys]
    lists a key once, so an object is assigned under [__proto__] at
    most once.) *)
Definition assign {V} (o : gmap string V) (key : string) (v : V) : gmap string V :=
  if String.eqb key "__proto__" then o else <[key := v]> o.

(** [ToString] of an inherited object: [Object.prototype] prints as
    "[object Object]" and a built-in function as a native-function
    text, the same up to white space in every engine. *)
Definition ToStringObject (o : inherited) : string :=
  match o with
  | ObjectPrototype => "[object Object]"
  | Builtin name _ => "function " ++ name ++ "() { [native code] }"
  end.

(** [value.length] of an inherited object: the arity of a function,
    [undefined] ([None]) for [Object.prototype]. *)
Definition object_length (o : inherited) : option nat :=
  match o with
  | ObjectPrototype => None
  | Builtin _ arity => Some arity
  end.

(** ** Statement blocks with early [return] *)

(** The outcome of a run of statements inside [validateField]:
    [Normal (Some msg)] when a [return msg] was reached, [Normal None]
    when control fell through, [Throw] on a [TypeError]. *)
Definition block := completion (option string).

Definition return_if (c : completion bool) (msg : string) (k : block) : block :=
  c ≫= λ b : bool, if b then Normal (Some msg) else k.

Definition then_block (b k : block) : block :=
  b ≫= λ r : option string,
    match r with Some msg => Normal (Some msg) | None => k end.

Notation "'IF' c 'RETURN' msg ';;' k" := (return_if c msg k)
  (at level 10, c at level 99, msg at level 99, k at level 200,
   format "'[v' 'IF'  c  'RETURN'  msg ';;' '/' k ']'").
Infix ";;;" := then_block (at level 65, right associativity).

(** [bound && measure < bound] and [bound && measure > bound]: an
    absent bound and the bound [0] are falsy, and the measure is only
    evaluated when the bound is truthy. *)
Definition below (measure : completion nat) (bound : option Z) : completion bool :=
  match bound with
  | Some n => if (n =? 0)%Z then Normal false
              else m ← measure; Normal (Z.of_nat m <? n)%Z
  | None => Normal false
  end.

Definition above (measure : completion nat) (bound : option Z) : completion bool :=
  match bound with
  | Some n => if (n =? 0)%Z then Normal false
              else m ← measure; Normal (Z.of_nat m >? n)%Z
  | None => Normal false
  end.

(** [(value.match(re)?.length || 0)] for a global single-class [re]. *)
Definition count_matches (p : RegExp.charclass) (v : jsvalue) : completion nat :=
  m ← RegExp.match_global p v; Normal (length_or_zero m).

(** ** The validator *)

Import RegExp.

(** [/^[a-zA-Z0-9._%+-]+@[a-zA-Z0-9.-]+\.[a-zA-Z]{2,}$/] *)
Definition emailRegex : regex :=
  Cat (plus (Class (union alnum (one_of "._%+-"))))
 (Cat (Class (one_of "@"))
 (Cat (plus (Class (union alnum (one_of ".-"))))
 (Cat (Class (one_of "."))
      (two_or_more (Class (union lower upper)))))).

(** [/[^a-zA-Z0-9@._\-+]/] *)
Definition emailForbidden : regex :=
  Class (complement (union alnum (one_of "@._-+"))).

(** [/[^a-zA-Z0-9]/g], [/[A-Z]/g], [/[0-9]/g] *)
Definition specialCharRegex : charclass := complement alnum.
Definition uppercaseRegex : charclass := upper.
Definition numberRegex : charclass := digit.

(** [/^\d+$/] and [/[^\d]/] *)
Definition onlyDigits : regex := plus (Class digit).
Definition nonDigit : regex := Class (complement digit).

Section Validator.

Variable config : gmap string FieldConfig.

Definition requiredRule (field : FieldConfig) (name : string) (value : jsvalue) : block :=
  IF Normal (truthy_bool (required field) && negb (truthy value))
    RETURN or_string (label field) name ++ " is required." ;;
  Normal None.

Definition emailRules (field : FieldConfig) (value : jsvalue) : block :=
  if bool_decide (type field = email) && truthy value then
    IF Normal (negb (test_anchored emailRegex (ToString value)))
      RETURN "Invalid email format." ;;
    IF Normal (test emailForbidden (ToString value))
      RETURN "Email contains invalid characters." ;;
    Normal None
  else Normal None.

Definition passwordRules (field : FieldConfig) (value : jsvalue) : block :=
  if bool_decide (type field = password) && truthy value then
    IF below (get_length value) (minLength field)
      RETURN "Password must be at least " ++ show_num (minLength field) ++ " characters." ;;
    IF below (count_matches specialCharRegex value) (minSpecialChars field)
      RETURN "Password must contain at least " ++ show_num (minSpecialChars field)
             ++ " special character(s)." ;;
    IF below (count_matches uppercaseRegex value) (minUppercase field)
      RETURN "Password must contain at least " ++ show_num (minUppercase field)
             ++ " uppercase letter(s)." ;;
    IF below (count_matches numberRegex value) (minNumbers field)
      RETURN "Password must contain at least " ++ show_num (minNumbers field)
             ++ " number(s)." ;;
    Normal None
  else Normal None.

(** [value !== values[field.matchField || "password"]]: a missing
    entry is [undefined] and differs from every string. *)
Definition repeatPasswordRules (vals : gmap string string)
    (field : FieldConfig) (value : jsvalue) : block :=
  if bool_decide (type field = repeatPassword) && truthy value then
    let matchValue : jsvalue := vals !! or_string (matchField field) "password" in
    IF Normal (negb (bool_decide (value = matchValue)))
      RETURN "Passwords do not match." ;;
    Normal None
  else Normal None.

Definition textRules (field : FieldConfig) (value : jsvalue) : block :=
  if bool_decide (type field = text) && truthy value then
    IF Normal (test_anchored onlyDigits (ToString value))
      RETURN "Text cannot be only numbers." ;;
    IF below (get_length value) (minLength field)
      RETURN "Text must be at least " ++ show_num (minLength field) ++ " characters." ;;
    IF above (get_length value) (maxLength field)
      RETURN "Text must be at most " ++ show_num (maxLength field) ++ " characters." ;;
    Normal None
  else Normal None.

Definition textareaRules (field : FieldConfig) (value : jsvalue) : block :=
  if bool_decide (type field = textarea) && truthy value then
    IF below (get_length value) (minLength field)
      RETURN "Textarea must be at least " ++ show_num (minLength field) ++ " characters." ;;
    IF above (get_length value) (maxLength field)
      RETURN "Textarea must be at most " ++ show_num (maxLength field) ++ " characters." ;;
    Normal None
  else Normal None.

Definition numberRules (field : FieldConfig) (value : jsvalue) : block :=
  if bool_decide (type field = number) && truthy value then
    IF Normal (test nonDigit (ToString value))
      RETURN "Only numbers are allowed." ;;
    IF below (get_length value) (minLength field)
      RETURN "Number must be at least " ++ show_num (minLength field) ++ " digits." ;;
    IF above (get_length value) (maxLength field)
      RETURN "Number must be at most " ++ show_num (maxLength field) ++ " digits." ;;
    Normal None
  else Normal None.

(** [validateField(name, value)], reading the value store [vals] of
    the render that created the closure.  The result is the error
    message, or [None] for [null]. *)
Definition validateField (vals : gmap string string)
    (name : string) (value : jsvalue) : completion (option string) :=
  match config !! name with
  | None => Normal None                         (* if (!field) return null *)
  | Some field =>
      requiredRule field name value ;;;
      emailRules field value ;;;
      passwordRules field value ;;;
      repeatPasswordRules vals field value ;;;
      textRules field value ;;;
      textareaRules field value ;;;
      numberRules field value ;;;
      Normal None
  end.

(** *** [validateField] on a value that is not a string

    [validateAll] passes [values[name]], which is an inherited object
    when [name] is no own property of the store but a member of
    [Object.prototype].  Such a value is truthy, so the required rule
    never fires and the rules of the field's type run on it: the
    regular expressions see its [ToString], [value.length] is an
    arity or [undefined] (every comparison with [undefined] is
    false), and [value.match] is not a function, so calling it is a
    [TypeError]. *)

Definition below_length (len : option nat) (bound : option Z) : completion bool :=
  match len with
  | Some m => below (Normal m) bound
  | None => Normal false
  end.

Definition above_length (len : option nat) (bound : option Z) : completion bool :=
  match len with
  | Some m => above (Normal m) bound
  | None => Normal false
  end.

(** [(value.match(re)?.length || 0)] on an object. *)
Definition count_matches_object : completion nat := Throw.

Definition emailRulesObject (field : FieldConfig) (o : inherited) : block :=
  if bool_decide (type field = email) then
    IF Normal (negb (test_anchored emailRegex (ToStringObject o)))
      RETURN "Invalid email format." ;;
    IF Normal (test emailForbidden (ToStringObject o))
      RETURN "Email contains invalid characters." ;;
    Normal None
  else Normal None.

Definition passwordRulesObject (field : FieldConfig) (o : inherited) : block :=
  if bool_decide (type field = password) then
    IF below_length (object_length o) (minLength field)
      RETURN "Password must be at least " ++ show_num (minLength field) ++ " characters." ;;
    IF below count_matches_object (minSpecialChars field)
      RETURN "Password must contain at least " ++ show_num (minSpecialChars field)
             ++ " special character(s)." ;;
    IF below count_matches_object (minUppercase field)
      RETURN "Password must contain at least " ++ show_num (minUppercase field)
             ++ " uppercase letter(s)." ;;
    IF below count_matches_object (minNumbers field)
      RETURN "Password must contain at least " ++ show_num (minNumbers field)
             ++ " number(s)." ;;
    Normal None
  else Normal None.

(** [value !== matchValue]: an object equals only itself. *)
Definition repeatPasswordRulesObject (vals : gmap string string)
    (field : FieldConfig) (o : inherited) : block :=
  if bool_decide (type field = repeatPassword) then
    let matchValue := get vals (or_string (matchField field) "password") in
    IF Normal (negb (bool_decide (Inherited o = matchValue)))
      RETURN "Passwords do not match." ;;
    Normal None
  else Normal None.

Definition textRulesObject (field : FieldConfig) (o : inherited) : block :=
  if bool_decide (type field = text) then
    IF Normal (test_anchored onlyDigits (ToStringObject o))
      RETURN "Text cannot be only numbers." ;;
    IF below_length (object_length o) (minLength field)
      RETURN "Text must be at least " ++ show_num (minLength field) ++ " characters." ;;
    IF above_length (object_length o) (maxLength field)
      RETURN "Text must be at most " ++ show_num (maxLength field) ++ " characters." ;;
    Normal None
  else Normal None.

Definition textareaRulesObject (field : FieldConfig) (o : inherited) : block :=
  if bool_decide (type field = textarea) then
    IF below_length (object_length o) (minLength field)
      RETURN "Textarea must be at least " ++ show_num (minLength field) ++ " characters." ;;
    IF above_length (object_length o) (maxLength field)
      RETURN "Textarea must be at most " ++ show_num (maxLength field) ++ " characters." ;;
    Normal None
  else Normal None.

Definition numberRulesObject (field : FieldConfig) (o : inherited) : block :=
  if bool_decide (type field = number) then
    IF Normal (test nonDigit (ToStringObject o))
      RETURN "Only numbers are allowed." ;;
    IF below_length (object_length o) (minLength field)
      RETURN "Number must be at least " ++ show_num (minLength field) ++ " digits." ;;
    IF above_length (object_length o) (maxLength field)
      RETURN "Number must be at most " ++ show_num (maxLength field) ++ " digits." ;;
    Normal None
  else Normal None.

Definition validateFieldObject (vals : gmap string string)
    (name : string) (o : inherited) : completion (option string) :=
  match config !! name with
  | None => Normal None
  | Some field =>
      emailRulesObject field o ;;;
      passwordRulesObject field o ;;;
      repeatPasswordRulesObject vals field o ;;;
      textRulesObject field o ;;;
      textareaRulesObject field o ;;;
      numberRulesObject field o ;;;
      Normal None
  end.

(** [validateField(name, v)] for the result [v] of a store read. *)
Definition validateFieldOn (vals : gmap string string)
    (name : string) (v : property) : completion (option string) :=
  match v with
  | Own s => validateField vals name (Some s)
  | Undefined => validateField vals name None
  | Inherited o => validateFieldObject vals name o
  end.

(** [initialValues]: [initialValues[key] = ""] for every key of the
    config. *)
Definition initialValues : gmap string string :=
  foldl (fun acc key => assign acc key "") ∅ (ObjectKeys config).

(** The state of the first render: [useState(initialValues)],
    [useState({})]. *)
Definition init : FormState := mkState initialValues ∅.

(** [handleChange(e)] with [e.target = {name, value}].  Both state
    updaters are applied to the previous stores; [validateField]
    still reads the value store of the current render. *)
Definition handleChange (st : FormState) (name value : string) : completion FormState :=
  error ← validateField (values st) name (Some value);
  Normal (mkState (<[name := value]> (values st)) (<[name := error]> (errors st))).

(** One iteration of the [forEach] of [validateAll], on the pair
    [(newErrors, valid)]. *)
Definition validateAll_step (vals : gmap string string)
    (acc : completion (gmap string (option string) * bool)) (name : string)
    : completion (gmap string (option string) * bool) :=
  a ← acc;
  error ← validateFieldOn vals name (get vals name);
  Normal (assign a.1 name error, if truthy error then false else a.2).

(** [validateAll()]: the next state and the returned flag. *)
Definition validateAll (st : FormState) : completion (FormState * bool) :=
  r ← foldl (validateAll_step (values st)) (Normal (∅, true)) (ObjectKeys config);
  Normal (mkState (values st) r.1, r.2).

(** [reset()]. *)
Definition reset (st : FormState) : FormState := mkState initialValues ∅.

End Validator.

(** ** Auxiliary notions used in the statements *)

(** The computation completes normally: no exception is thrown. *)
Definition returns {A} (c : completion A) : Prop := ∃ a, c = Normal a.

(** The operations of the validator, and the states they reach from
    the initial one. *)
Inductive operation : Type :=
| Update (name value : string)
| ValidateAll
| Reset.

Definition run (config : gmap string FieldConfig) (st : FormState) (op : operation)
    : completion FormState :=
  match op with
  | Update name value => handleChange config st name value
  | ValidateAll => r ← validateAll config st; Normal r.1
  | Reset => Normal (reset config st)
  end.

Inductive reachable (config : gmap string FieldConfig) : FormState -> Prop :=
| reachable_init : reachable config (init config)
| reachable_step st op st' :
    reachable config st -> run config st op = Normal st' -> reachable config st'.

(** The message [validateAll] computes for [name]: the result of
    [validateField(name, values[name])]. *)
Definition verdict (config : gmap string FieldConfig) (vals : gmap string string)
    (name : string) : option string :=
  match validateField config vals name (vals !! name) with
  | Normal e => e
  | Throw => None
  end.

(** The password checks in the order the specification lists them,
    each with its failure condition and message; [first_failure] picks
    the message of the first failing one. *)
Definition failing_min (measure : nat) (bound : option Z) : bool :=
  match bound with
  | Some n => negb (n =? 0)%Z && (Z.of_nat measure <? n)%Z
  | None => false
  end.

Definition count_class (p : RegExp.charclass) (s : string) : nat :=
  List.length (RegExp.matches_of p s).

Definition password_checks (field : FieldConfig) (s : string) : list (bool * string) :=
  [ (failing_min (String.length s) (minLength field),
     "Password must be at least " ++ show_num (minLength field) ++ " characters.");
    (failing_min (count_class (RegExp.complement RegExp.alnum) s) (minSpecialChars field),
     "Password must contain at least " ++ show_num (minSpecialChars field)
       ++ " special character(s).");
    (failing_min (count_class RegExp.upper s) (minUppercase field),
     "Password must contain at least " ++ show_num (minUppercase field)
       ++ " uppercase letter(s).");
    (failing_min (count_class RegExp.digit s) (minNumbers field),
     "Password must contain at least " ++ show_num (minNumbers field) ++ " number(s).") ].

Fixpoint first_failure (checks : list (bool * string)) : option string :=
  match checks with
  | [] => None
  | (failed, msg) :: rest => if failed then Some msg else first_failure rest
  end.

(** ** Readings of the specification that the code does not meet

    Each of the following propositions writes one sentence of the
    specification down literally; the development refutes it on a
    concrete input and proves the statement that does hold. *)

(** "<label> is the configured label, or the field's key when no label
    is configured". *)
Definition label_or_key (field : FieldConfig) (name : string) : string :=
  match label field with
  | Some l => l
  | None => name
  end.

Definition required_message_as_stated : Prop :=
  ∀ (config : gmap string FieldConfig) (vals : gmap string string) name field,
    config !! name = Some field -> required field = Some true ->
    validateField config vals name (Some "")
      = Normal (Some (label_or_key field name ++ " is required.")).


(** The three email examples, the third with the character-set error. *)
Definition email_examples_as_stated : Prop :=
  ∀ (config : gmap string FieldConfig) (vals : gmap string string) name field,
    config !! name = Some field -> type field = email ->
    validateField config vals name (Some "a@b.com") = Normal None
    ∧ validateField config vals name (Some "not-an-email")
        = Normal (Some "Invalid email format.")
    ∧ validateField config vals name (Some "a@b.com!")
        = Normal (Some "Email contains invalid characters.").


(** A dangling [matchField] gives the mismatch error for every
    non-empty value, in every reachable state. *)
Definition dangling_mismatch_as_stated : Prop :=
  ∀ (config : gmap string FieldConfig) st name field target s,
    reachable config st ->
    config !! name = Some field -> type field = repeatPassword ->
    matchField field = Some target -> config !! target = None ->
    s ≠ "" ->
    validateField config (values st) name (Some s)
      = Normal (Some "Passwords do not match.").

(** ** Example configurations and states *)

(** The configuration and the state used to exhibit a stale error:
    both password fields hold "X1" and have been validated. *)
Definition passwordPair : gmap string FieldConfig :=
  {[ "password" := plain password;
     "confirm" := mkField repeatPassword None None None None None None None
                    (Some "password") ]}.

Definition bothTyped : FormState :=
  mkState (<["confirm" := "X1"]> (<["password" := "X1"]> (initialValues passwordPair)))
          (<["confirm" := None]> (<["password" := None]> ∅)).

(** A state in which the value store holds a key that is not
    configured: the initial state of [passwordPair] after
    [update("ghost", "X1")]. *)
Definition ghostTyped : FormState :=
  mkState (<["ghost" := "X1"]> (initialValues passwordPair)) (<["ghost" := None]> ∅).

(** A repeatPassword field whose [matchField] names no configured
    field. *)
Definition danglingConfig : gmap string FieldConfig :=
  {[ "confirm" := mkField repeatPassword None None None None None None None
                    (Some "ghost") ]}.

Definition danglingTyped : FormState :=
  mkState (<["ghost" := "X1"]> (initialValues danglingConfig)) (<["ghost" := None]> ∅).

(** ** The language of a regular expression

    [matches r s]: the string [s] belongs to the language of [r].  The
    derivative-based [test_anchored] is proved to decide it. *)

Inductive matches : regex -> string -> Prop :=
| matches_eps : matches Eps ""
| matches_class p c : p c = true -> matches (Class p) (String c "")
| matches_cat r1 r2 s1 s2 :
    matches r1 s1 -> matches r2 s2 -> matches (Cat r1 r2) (s1 ++ s2)
| matches_alt_l r1 r2 s : matches r1 s -> matches (Alt r1 r2) s
| matches_alt_r r1 r2 s : matches r2 s -> matches (Alt r1 r2) s
| matches_star_nil r : matches (Star r) ""
| matches_star_cons r s1 s2 :
    matches r s1 -> matches (Star r) s2 -> matches (Star r) (s1 ++ s2).

(** Every / some character of a string is in a class. *)
Fixpoint all_chars (p : charclass) (s : string) : bool :=
  match s with
  | EmptyString => true
  | String c s' => p c && all_chars p s'
  end.

Fixpoint has_char (p : charclass) (s : string) : bool :=
  match s with
  | EmptyString => false
  | String c s' => p c || has_char p s'
  end.

(** [bound && measure > bound] as a plain boolean, the counterpart of
    [failing_min] for upper bounds. *)
Definition failing_max (measure : nat) (bound : option Z) : bool :=
  match bound with
  | Some n => negb (n =? 0)%Z && (Z.of_nat measure >? n)%Z
  | None => false
  end.

(** A form with a free-text field and a four-to-six digit code. *)
Definition pinField : FieldConfig :=
  mkField number None None (Some 4%Z) (Some 6%Z) None None None None.

Definition pinForm : gmap string FieldConfig :=
  {[ "nick" := plain text; "pin" := pinField ]}.

(** A numeric bound with the falsy value [0] replaced by "absent",
    and a field configuration with all its bounds so normalised. *)
Definition drop_zero (bound : option Z) : option Z :=
  match bound with
  | Some 0%Z => None
  | _ => bound
  end.

Definition without_zero_bounds (f : FieldConfig) : FieldConfig :=
  mkField (type f) (label f) (required f)
    (drop_zero (minLength f)) (drop_zero (maxLength f))
    (drop_zero (minSpecialChars f)) (drop_zero (minUppercase f))
    (drop_zero (minNumbers f)) (matchField f).

(** Two configurations of a field agree on the properties that the
    rules of its type read. *)
Definition same_consulted (f g : FieldConfig) : Prop :=
  type f = type g ∧ label f = label g ∧ required f = required g ∧
  match type f with
  | email => True
  | password =>
      minLength f = minLength g ∧ minSpecialChars f = minSpecialChars g
      ∧ minUppercase f = minUppercase g ∧ minNumbers f = minNumbers g
  | repeatPassword => matchField f = matchField g
  | text | textarea | number =>
      minLength f = minLength g ∧ maxLength f = maxLength g
  end.

(** The field is not a repeatPassword field (or is not configured). *)
Definition not_repeat (config : gmap string FieldConfig) (name : string) : Prop :=
  ∀ f, config !! name = Some f -> type f ≠ repeatPassword.

(** [ghostTyped] after [validateAll()]. *)
Definition ghostValidated : FormState :=
  mkState (values ghostTyped) (<["confirm" := None]> (<["password" := None]> ∅)).

(** The repeat field of [passwordPair] typed first, then the password
    field with the same value. *)
Definition confirmFirst : FormState :=
  mkState (<["confirm" := "X1"]> (initialValues passwordPair))
          (<["confirm" := Some "Passwords do not match."]> ∅).

Definition confirmThenPassword : FormState :=
  mkState (<["password" := "X1"]> (values confirmFirst))
          (<["password" := None]> (errors confirmFirst)).

(** ** The other hooks

    [useToggle]: the state after a call [toggle(value)], where [None]
    is a call without argument ([typeof value !== "boolean"]). *)
Definition toggle (isActive : bool) (value : option bool) : bool :=
  match value with
  | Some b => b
  | None => negb isActive
  end.

(** [useBreakpoint]: [getBreakpoint(width)], on integer widths. *)
Inductive Breakpoint : Type :=
| smartwatch | mobileSmall | mobileLarge | phablet | tabletSmall
| tabletLarge | desktopSmall | desktopMedium | desktopLarge | widescreen.

Definition getBreakpoint (width : Z) : Breakpoint :=
  if (width <=? 320)%Z then smartwatch
  else if (width <=? 390)%Z then mobileSmall
  else if (width <=? 480)%Z then mobileLarge
  else if (width <=? 600)%Z then phablet
  else if (width <=? 768)%Z then tabletSmall
  else if (width <=? 991)%Z then tabletLarge
  else if (width <=? 1200)%Z then desktopSmall
  else if (width <=? 1440)%Z then desktopMedium
  else if (width <=? 1600)%Z then desktopLarge
  else widescreen.

(** The position of a breakpoint in the declared order, and the
    widths it stands for: above [lower_width] (when there is one) and
    up to [upper_width] (when there is one). *)
Definition rank (b : Breakpoint) : nat :=
  match b with
  | smartwatch => 0 | mobileSmall => 1 | mobileLarge => 2 | phablet => 3
  | tabletSmall => 4 | tabletLarge => 5 | desktopSmall => 6
  | desktopMedium => 7 | desktopLarge => 8 | widescreen => 9
  end.

Definition upper_width (b : Breakpoint) : option Z :=
  match b with
  | smartwatch => Some 320 | mobileSmall => Some 390 | mobileLarge => Some 480
  | phablet => Some 600 | tabletSmall => Some 768 | tabletLarge => Some 991
  | desktopSmall => Some 1200 | desktopMedium => Some 1440
  | desktopLarge => Some 1600 | widescreen => None
  end%Z.

Definition lower_width (b : Breakpoint) : option Z :=
  match b with
  | smartwatch => None | mobileSmall => Some 320 | mobileLarge => Some 390
  | phablet => Some 480 | tabletSmall => Some 600 | tabletLarge => Some 768
  | desktopSmall => Some 991 | desktopMedium => Some 1200
  | desktopLarge => Some 1440 | widescreen => Some 1600
  end%Z.

(** [useCheckBrowsers]: the browser the effect stores for a user-agent
    string.  [literal w] is the regular expression that spells the
    word [w], as in [/Edg\//]. *)
Inductive BrowserType : Type :=
| chrome | safari | edge | opera | firefox | other.

Fixpoint literal (w : string) : regex :=
  match w with
  | EmptyString => Eps
  | String c w' => Cat (Class (one_of (String c EmptyString))) (literal w')
  end.

Definition detectBrowser (userAgent : string) : BrowserType :=
  if test (literal "Edg/") userAgent then edge
  else if test (literal "OPR/") userAgent || test (literal "Opera") userAgent then opera
  else if test (literal "Firefox/") userAgent then firefox
  else if test (literal "Chrome/") userAgent
          && negb (test (literal "Edg/") userAgent)
          && negb (test (literal "OPR/") userAgent) then chrome
  else if test (literal "Safari/") userAgent
          && negb (test (literal "Chrome/") userAgent)
          && negb (test (literal "OPR/") userAgent)
          && negb (test (literal "Edg/") userAgent) then safari
  else other.

(** [w] occurs in [s]. *)
Definition contains (w s : string) : Prop := ∃ pre post, s = pre ++ w ++ post.

(** The rules see a string or [undefined] for every field: no field
    is named [__proto__], and a field without entry in the value
    store is not named like a member of [Object.prototype]. *)
Definition well_keyed (config : gmap string FieldConfig)
    (vals : gmap string string) : Prop :=
  ∀ k, is_Some (config !! k) ->
       k ≠ "__proto__"
       ∧ (is_Some (vals !! k) ∨ member k ObjectPrototypeMembers = None).

(** Every message a block can return is non-empty. *)
Definition speaks (b : block) : Prop := ∀ msg, b = Normal (Some msg) -> msg ≠ "".


Definition protoPassword : gmap string FieldConfig :=
  {[ "__proto__" := mkField password None None None None (Some 1%Z) None None None ]}.

(** ** Basic facts about blocks *)

Lemma then_block_fallthrough (k : block) : (Normal None ;;; k) = k.
Proof. reflexivity. Qed.

Lemma then_block_return (msg : string) (k : block) :
  (Normal (Some msg) ;;; k) = Normal (Some msg).
Proof. reflexivity. Qed.

Lemma then_block_end (b : block) : (b ;;; Normal None) = b.
Proof. destruct b as [[msg|]|]; reflexivity. Qed.

Lemma truthy_nonempty (s : string) : s ≠ "" -> truthy (Some s) = true.
Proof. destruct s; [congruence | reflexivity]. Qed.

Lemma truthy_Some (v : jsvalue) : truthy v = true -> ∃ s, v = Some s ∧ s ≠ "".
Proof.
  destruct v as [s|]; simpl; [|discriminate].
  destruct s; simpl; [discriminate|]. intros _. eexists; split; [reflexivity | discriminate].
Qed.

(** When the value is falsy (empty or [undefined]) every type-specific
    block is skipped. *)
Lemma falsy_skips_type_rules config vals name field value :
  config !! name = Some field -> truthy value = false ->
  validateField config vals name value = requiredRule field name value.
Proof.
  intros Hf Hv. unfold validateField. rewrite Hf.
  unfold emailRules, passwordRules, repeatPasswordRules, textRules,
    textareaRules, numberRules.
  rewrite Hv, !andb_false_r. cbv iota.
  rewrite !then_block_fallthrough. apply then_block_end.
Qed.

(** When the value is a non-empty string the required rule falls
    through and exactly the block of the field's type runs. *)
Lemma nonempty_dispatch config vals name field s :
  config !! name = Some field -> s ≠ "" ->
  validateField config vals name (Some s) =
    match type field with
    | email => emailRules field (Some s)
    | password => passwordRules field (Some s)
    | repeatPassword => repeatPasswordRules vals field (Some s)
    | text => textRules field (Some s)
    | number => numberRules field (Some s)
    | textarea => textareaRules field (Some s)
    end.
Proof.
  intros Hf Hs. unfold validateField. rewrite Hf.
  assert (Hreq : requiredRule field name (Some s) = Normal None).
  { unfold requiredRule. rewrite (truthy_nonempty s Hs), andb_false_r. reflexivity. }
  rewrite Hreq, then_block_fallthrough.
  unfold emailRules, passwordRules, repeatPasswordRules, textRules,
    textareaRules, numberRules.
  rewrite (truthy_nonempty s Hs).
  destruct field as [t ? ? ? ? ? ? ? ?]; destruct t; simpl;
    rewrite ?then_block_fallthrough, ?then_block_end; reflexivity.
Qed.

(** ** Empty values: the required rule *)

(** C1. For a field whose [required] is absent or false, and for every
    value store, [validateField] on the empty string returns no error,
    whatever the type and the other constraints of the field are. *)
Theorem optional_empty_is_valid (config : gmap string FieldConfig)
    (vals : gmap string string) name field :
  config !! name = Some field ->
  required field = None ∨ required field = Some false ->
  validateField config vals name (Some "") = Normal None.
Proof.
  intros Hf Hreq.
  rewrite (falsy_skips_type_rules config vals name field (Some "") Hf eq_refl).
  unfold requiredRule. destruct Hreq as [-> | ->]; reflexivity.
Qed.

Lemma optional_empty_is_valid_witness :
  validateField
    {[ "pw" := mkField password (Some "Password") (Some false)
                 (Some 8%Z) (Some 64%Z) (Some 1%Z) (Some 1%Z) (Some 2%Z) None ]}
    ∅ "pw" (Some "") = Normal None.
Proof.
  apply (optional_empty_is_valid _ ∅ "pw"
           (mkField password (Some "Password") (Some false)
              (Some 8%Z) (Some 64%Z) (Some 1%Z) (Some 1%Z) (Some 2%Z) None)).
  - reflexivity.
  - right; reflexivity.
Defined.

(** The literal reading of C2 fails when the label is configured as
    the empty string: [field.label || name] then falls back to the
    key. *)
Lemma required_message_counterexample : ¬ required_message_as_stated.
Proof.
  intros H.
  specialize (H {[ "f" := mkField text (Some "") (Some true)
                           None None None None None None ]} ∅ "f"
                (mkField text (Some "") (Some true) None None None None None None)
                eq_refl eq_refl).
  vm_compute in H. discriminate H.
Qed.

(** C2 (amended). For a field with [required = true], [validateField]
    on the empty string returns "<label> is required.", where <label>
    is the configured label when that is a non-empty string and the
    field's key otherwise (label absent or empty); no type-specific
    rule is consulted. *)
Theorem required_empty_is_error (config : gmap string FieldConfig)
    (vals : gmap string string) name field :
  config !! name = Some field ->
  required field = Some true ->
  validateField config vals name (Some "")
    = Normal (Some (match label field with
                    | Some (String c l) => String c l
                    | _ => name
                    end ++ " is required.")).
Proof.
  intros Hf Hreq.
  rewrite (falsy_skips_type_rules config vals name field (Some "") Hf eq_refl).
  unfold requiredRule, or_string. rewrite Hreq.
  destruct (label field) as [[|c l]|]; reflexivity.
Qed.

Lemma required_empty_is_error_witness :
  validateField
    {[ "mail" := mkField email (Some "E-mail") (Some true)
                   None None None None None None ]}
    ∅ "mail" (Some "") = Normal (Some "E-mail is required.").
Proof.
  apply (required_empty_is_error _ ∅ "mail"
           (mkField email (Some "E-mail") (Some true) None None None None None None));
    reflexivity.
Defined.

(** ** Password rules *)

Lemma below_Normal (m : nat) (bound : option Z) :
  below (Normal m) bound = Normal (failing_min m bound).
Proof.
  unfold below, failing_min. destruct bound as [n|]; [|reflexivity].
  destruct (n =? 0)%Z; reflexivity.
Qed.

Lemma count_matches_Some (p : charclass) (s : string) :
  count_matches p (Some s) = Normal (count_class p s).
Proof.
  unfold count_matches, match_global, count_class.
  destruct (matches_of p s); reflexivity.
Qed.

Lemma return_if_Normal (b : bool) (msg : string) (k : block) :
  (IF Normal b RETURN msg ;; k) = if b then Normal (Some msg) else k.
Proof. reflexivity. Qed.

Lemma passwordRules_first_failure field s :
  type field = password -> s ≠ "" ->
  passwordRules field (Some s) = Normal (first_failure (password_checks field s)).
Proof.
  intros Ht Hs. unfold passwordRules.
  rewrite Ht, (truthy_nonempty s Hs). simpl bool_decide. cbv iota beta. simpl andb. cbv iota.
  rewrite !count_matches_Some. unfold get_length.
  rewrite !below_Normal, !return_if_Normal.
  unfold password_checks, first_failure, specialCharRegex, uppercaseRegex, numberRegex.
  repeat match goal with |- context [failing_min ?m ?b] => destruct (failing_min m b) end;
    reflexivity.
Qed.

(** C3. With [{minLength:8, minSpecialChars:1, minUppercase:1,
    minNumbers:2}] the password "abcdefgh" gets the special-character
    error, "Abcdef1!" the numbers error and "Abcdef12!" no error; and
    for every password field and non-empty value the result is the
    message of the first failing check in the order minLength,
    minSpecialChars, minUppercase, minNumbers. *)
Theorem password_checks_in_order :
  (∀ (config : gmap string FieldConfig) (vals : gmap string string) name lbl req maxlen mf,
     config !! name
       = Some (mkField password lbl req (Some 8%Z) maxlen
                 (Some 1%Z) (Some 1%Z) (Some 2%Z) mf) ->
     validateField config vals name (Some "abcdefgh")
       = Normal (Some "Password must contain at least 1 special character(s).")
     ∧ validateField config vals name (Some "Abcdef1!")
       = Normal (Some "Password must contain at least 2 number(s).")
     ∧ validateField config vals name (Some "Abcdef12!") = Normal None)
  ∧ (∀ (config : gmap string FieldConfig) (vals : gmap string string) name field s,
       config !! name = Some field -> type field = password -> s ≠ "" ->
       validateField config vals name (Some s)
         = Normal (first_failure (password_checks field s))).
Proof.
  assert (Hgen : ∀ (config : gmap string FieldConfig) (vals : gmap string string)
                   name field s,
             config !! name = Some field -> type field = password -> s ≠ "" ->
             validateField config vals name (Some s)
               = Normal (first_failure (password_checks field s))).
  { intros config vals name field s Hf Ht Hs.
    rewrite (nonempty_dispatch config vals name field s Hf Hs), Ht.
    apply passwordRules_first_failure; assumption. }
  split; [|exact Hgen].
  intros config vals name lbl req maxlen mf Hf.
  repeat split; rewrite (Hgen config vals name _ _ Hf eq_refl) by discriminate;
    reflexivity.
Qed.

Lemma password_checks_in_order_witness :
  validateField
    {[ "pw" := mkField password None (Some true) (Some 8%Z) None
                 (Some 1%Z) (Some 1%Z) (Some 2%Z) None ]}
    ∅ "pw" (Some "Ab1!") = Normal (Some "Password must be at least 8 characters.").
Proof.
  apply (proj2 password_checks_in_order _ ∅ "pw"
           (mkField password None (Some true) (Some 8%Z) None
              (Some 1%Z) (Some 1%Z) (Some 2%Z) None) "Ab1!").
  - reflexivity.
  - reflexivity.
  - discriminate.
Defined.

(** ** Email rules *)

Lemma emailRules_order field s :
  type field = email -> s ≠ "" ->
  emailRules field (Some s)
    = Normal (if negb (test_anchored emailRegex s) then Some "Invalid email format."
              else if test emailForbidden s then Some "Email contains invalid characters."
              else None).
Proof.
  intros Ht Hs. unfold emailRules.
  rewrite Ht, (truthy_nonempty s Hs). simpl bool_decide. simpl andb. cbv iota.
  rewrite !return_if_Normal. simpl ToString.
  destruct (test_anchored emailRegex s), (test emailForbidden s); reflexivity.
Qed.

(** The third example of C4 as stated fails: "a@b.com!" does not pass
    the format check, so the format error is returned. *)
Lemma email_examples_counterexample : ¬ email_examples_as_stated.
Proof.
  intros H.
  assert (Hf : ({[ "mail" := plain email ]} : gmap string FieldConfig) !! "mail"
               = Some (plain email)) by reflexivity.
  destruct (H _ ∅ "mail" (plain email) Hf eq_refl) as (_ & _ & H3).
  vm_compute in H3. discriminate H3.
Qed.

(** C4 (amended). For an email field, "a@b.com" gets no error and
    both "not-an-email" and "a@b.com!" get "Invalid email format.";
    for every non-empty value the format check comes first and the
    character-set check is consulted only when the format check
    passes. *)
Theorem email_format_then_charset :
  (∀ (config : gmap string FieldConfig) (vals : gmap string string) name field,
     config !! name = Some field -> type field = email ->
     validateField config vals name (Some "a@b.com") = Normal None
     ∧ validateField config vals name (Some "not-an-email")
         = Normal (Some "Invalid email format.")
     ∧ validateField config vals name (Some "a@b.com!")
         = Normal (Some "Invalid email format."))
  ∧ (∀ (config : gmap string FieldConfig) (vals : gmap string string) name field s,
       config !! name = Some field -> type field = email -> s ≠ "" ->
       validateField config vals name (Some s)
         = Normal (if negb (test_anchored emailRegex s)
                   then Some "Invalid email format."
                   else if test emailForbidden s
                        then Some "Email contains invalid characters."
                        else None)).
Proof.
  assert (Hgen : ∀ (config : gmap string FieldConfig) (vals : gmap string string)
                   name field s,
             config !! name = Some field -> type field = email -> s ≠ "" ->
             validateField config vals name (Some s)
               = Normal (if negb (test_anchored emailRegex s)
                         then Some "Invalid email format."
                         else if test emailForbidden s
                              then Some "Email contains invalid characters."
                              else None)).
  { intros config vals name field s Hf Ht Hs.
    rewrite (nonempty_dispatch config vals name field s Hf Hs), Ht.
    apply emailRules_order; assumption. }
  split; [|exact Hgen].
  intros config vals name field Hf Ht.
  repeat split; rewrite (Hgen config vals name field _ Hf Ht) by discriminate;
    vm_compute; reflexivity.
Qed.

Lemma email_format_then_charset_witness :
  validateField {[ "mail" := plain email ]} ∅ "mail" (Some "a@b.com!")
    = Normal (Some "Invalid email format.").
Proof.
  apply (proj1 email_format_then_charset {[ "mail" := plain email ]} ∅ "mail"
           (plain email)); reflexivity.
Defined.

Lemma required_message_is_not_charset_message (p : string) :
  p ++ " is required." ≠ "Email contains invalid characters.".
Proof.
  intros H.
  repeat (destruct p as [|? p]; simpl in H; [discriminate H | injection H as _ H]).
  destruct p; discriminate H.
Qed.

(** C10. The character-set error of an email field is reachable: the
    value "a%b@c.com" passes the format check (which admits '%' in the
    local part), is rejected by the allowed-character check, and gets
    "Email contains invalid characters."; and whenever [validateField]
    returns that message for an email field, the value is a string
    that passed the format check. *)
Theorem charset_error_reachable_after_format :
  (test_anchored emailRegex "a%b@c.com" = true
   ∧ test emailForbidden "a%b@c.com" = true)
  ∧ (∀ (config : gmap string FieldConfig) (vals : gmap string string) name field,
       config !! name = Some field -> type field = email ->
       validateField config vals name (Some "a%b@c.com")
         = Normal (Some "Email contains invalid characters."))
  ∧ (∀ (config : gmap string FieldConfig) (vals : gmap string string) name field value,
       config !! name = Some field -> type field = email ->
       validateField config vals name value
         = Normal (Some "Email contains invalid characters.") ->
       ∃ s, value = Some s ∧ test_anchored emailRegex s = true
            ∧ test emailForbidden s = true).
Proof.
  split; [split; vm_compute; reflexivity|]. split.
  - intros config vals name field Hf Ht.
    rewrite (nonempty_dispatch config vals name field _ Hf) by discriminate.
    rewrite Ht, emailRules_order by (assumption || discriminate).
    vm_compute; reflexivity.
  - intros config vals name field value Hf Ht Hres.
    destruct (truthy value) eqn:Hv.
    + destruct (truthy_Some value Hv) as (s & -> & Hs).
      rewrite (nonempty_dispatch config vals name field s Hf Hs), Ht in Hres.
      rewrite (emailRules_order field s Ht Hs) in Hres.
      exists s. split; [reflexivity|].
      destruct (test_anchored emailRegex s), (test emailForbidden s);
        simpl in Hres; try discriminate Hres; split; reflexivity.
    + rewrite (falsy_skips_type_rules config vals name field value Hf Hv) in Hres.
      unfold requiredRule in Hres. rewrite return_if_Normal in Hres.
      destruct (truthy_bool (required field) && negb (truthy value));
        [|discriminate Hres].
      injection Hres as Hres.
      destruct (required_message_is_not_charset_message _ Hres).
Qed.

Lemma charset_error_reachable_after_format_witness :
  ∃ s, Some "x%y@z.org" = Some s ∧ test_anchored emailRegex s = true
       ∧ test emailForbidden s = true.
Proof.
  apply (proj2 (proj2 charset_error_reachable_after_format)
           {[ "mail" := plain email ]} ∅ "mail" (plain email) (Some "x%y@z.org"));
    reflexivity.
Defined.

(** ** No operation throws *)

Lemma returns_Normal {A} (a : A) : returns (Normal a).
Proof. exists a; reflexivity. Qed.

Lemma returns_return_if c msg k : returns c -> returns k -> returns (return_if c msg k).
Proof.
  intros [b ->] Hk. rewrite return_if_Normal. destruct b; [apply returns_Normal | exact Hk].
Qed.

Lemma returns_then_block b k : returns b -> returns k -> returns (b ;;; k).
Proof.
  intros [[msg|] ->] Hk; [apply returns_Normal | exact Hk].
Qed.

Lemma returns_below m bound : returns m -> returns (below m bound).
Proof. intros [n ->]. rewrite below_Normal. apply returns_Normal. Qed.

Lemma returns_above m bound : returns m -> returns (above m bound).
Proof.
  intros [n ->]. unfold above. destruct bound as [k|]; [|apply returns_Normal].
  destruct (k =? 0)%Z; apply returns_Normal.
Qed.

Lemma returns_get_length s : returns (get_length (Some s)).
Proof. apply returns_Normal. Qed.

Lemma returns_count_matches p s : returns (count_matches p (Some s)).
Proof. rewrite count_matches_Some. apply returns_Normal. Qed.

Create HintDb returns.
#[local] Hint Resolve returns_Normal returns_return_if returns_then_block
  returns_below returns_above returns_get_length returns_count_matches : returns.

(** A block guarded by [... && value] never reads a property of an
    [undefined] value. *)
Lemma returns_guarded (t : bool) (value : jsvalue) (body : block) :
  (∀ s, value = Some s -> returns body) ->
  returns (if t && truthy value then body else Normal None).
Proof.
  intros Hbody. destruct t; simpl; [|apply returns_Normal].
  destruct (truthy value) eqn:Hv; [|apply returns_Normal].
  destruct (truthy_Some value Hv) as (s & Hs & _). exact (Hbody s Hs).
Qed.

Lemma validateField_returns config vals name value :
  returns (validateField config vals name value).
Proof.
  unfold validateField. destruct (config !! name) as [field|]; [|apply returns_Normal].
  unfold requiredRule, emailRules, passwordRules, repeatPasswordRules, textRules,
    textareaRules, numberRules.
  repeat (apply returns_then_block);
    try (apply returns_guarded; intros s ->); auto 10 with returns.
Qed.

Lemma handleChange_returns config st name value :
  returns (handleChange config st name value).
Proof.
  unfold handleChange.
  destruct (validateField_returns config (values st) name (Some value)) as [e ->].
  apply returns_Normal.
Qed.

(** ** The stores *)

Lemma elem_of_ObjectKeys {V} (o : gmap string V) (k : string) :
  k ∈ ObjectKeys o ↔ is_Some (o !! k).
Proof.
  unfold ObjectKeys. rewrite list_elem_of_fmap. split.
  - intros ([k' v] & -> & Hin). apply elem_of_map_to_list in Hin. eauto.
  - intros [v Hv]. exists (k, v). split; [reflexivity|]. by apply elem_of_map_to_list.
Qed.

(** Assigning [o[n] = f(n)] for every [n] of a list of keys. *)
Lemma foldl_insert_lookup {V} (f : string -> V) (l : list string) :
  ∀ (acc : gmap string V) k,
    foldl (fun e n => <[n := f n]> e) acc l !! k
      = if decide (k ∈ l) then Some (f k) else acc !! k.
Proof.
  induction l as [|a l IH]; intros acc k; simpl.
  - destruct (decide (k ∈ [])) as [Hin|_]; [by apply elem_of_nil in Hin | reflexivity].
  - rewrite IH.
    destruct (decide (k ∈ l)) as [Hl|Hl], (decide (k ∈ a :: l)) as [Hal|Hal];
      try reflexivity.
    + destruct Hal. apply elem_of_cons. by right.
    + apply elem_of_cons in Hal as [->|Hin]; [|contradiction].
      by rewrite lookup_insert_eq.
    + rewrite lookup_insert_ne; [reflexivity|].
      intros ->. apply Hal, elem_of_cons. by left.
Qed.

Lemma assign_other {V} (o : gmap string V) key (v : V) :
  key ≠ "__proto__" -> assign o key v = <[key := v]> o.
Proof. intros Hne. unfold assign. apply String.eqb_neq in Hne. by rewrite Hne. Qed.

Lemma assign_lookup {V} (o : gmap string V) key (v : V) k :
  assign o key v !! k
    = if decide (k = key ∧ k ≠ "__proto__") then Some v else o !! k.
Proof.
  unfold assign. destruct (String.eqb_spec key "__proto__") as [->|Hne].
  - destruct (decide (k = "__proto__" ∧ k ≠ "__proto__")) as [[Heq H]|_];
      [congruence | reflexivity].
  - destruct (decide (k = key ∧ k ≠ "__proto__")) as [[-> _]|Hk].
    + apply lookup_insert_eq.
    + apply lookup_insert_ne. intros <-. apply Hk. by split.
Qed.

(** Assigning [o[n] = f(n)] for every [n] of a list of keys. *)
Lemma foldl_assign_lookup {V} (f : string -> V) (l : list string) :
  ∀ (acc : gmap string V) k,
    foldl (fun e n => assign e n (f n)) acc l !! k
      = if decide (k ∈ l ∧ k ≠ "__proto__") then Some (f k) else acc !! k.
Proof.
  induction l as [|a l IH]; intros acc k; cbn [foldl].
  - destruct (decide (k ∈ [] ∧ k ≠ "__proto__")) as [[Hin _]|_];
      [by apply elem_of_nil in Hin | reflexivity].
  - rewrite IH, assign_lookup.
    destruct (decide (k ∈ l ∧ k ≠ "__proto__")) as [[Hl Hp]|Hl],
      (decide (k ∈ a :: l ∧ k ≠ "__proto__")) as [[Hal Hp']|Hal]; try reflexivity.
    + destruct Hal. split; [apply elem_of_cons; by right | exact Hp].
    + apply elem_of_cons in Hal as [->|Hin]; [|destruct Hl; by split].
      destruct (decide (a = a ∧ a ≠ "__proto__")) as [_|Hn];
        [reflexivity | destruct Hn; by split].
    + destruct (decide (k = a ∧ k ≠ "__proto__")) as [[-> Hp]|_]; [|reflexivity].
      destruct Hal. split; [apply elem_of_cons; by left | exact Hp].
Qed.

Lemma initialValues_lookup config k :
  initialValues config !! k
    = if decide (k = "__proto__") then None else (fun _ => "") <$> config !! k.
Proof.
  unfold initialValues.
  rewrite (foldl_assign_lookup (fun _ => "") (ObjectKeys config) ∅ k), lookup_empty.
  destruct (decide (k = "__proto__")) as [->|Hne].
  - destruct (decide ("__proto__" ∈ ObjectKeys config ∧ "__proto__" ≠ "__proto__"))
      as [[_ H]|_]; [congruence | reflexivity].
  - destruct (decide (k ∈ ObjectKeys config ∧ k ≠ "__proto__")) as [[Hin _]|Hin].
    + apply elem_of_ObjectKeys in Hin as [f ->]. reflexivity.
    + destruct (config !! k) eqn:Hk; [|reflexivity].
      destruct Hin. split; [apply elem_of_ObjectKeys; eauto | exact Hne].
Qed.

Lemma initialValues_dom config :
  dom (initialValues config) = dom config ∖ {[ "__proto__" ]}.
Proof.
  apply set_eq. intros k.
  rewrite elem_of_difference, !elem_of_dom, elem_of_singleton, initialValues_lookup.
  destruct (decide (k = "__proto__")) as [->|Hne].
  - split; [intros [? ?]; discriminate | intros [_ H]; by destruct H].
  - destruct (config !! k); simpl; split.
    + intros _. split; [eauto | exact Hne].
    + eauto.
    + intros [? ?]; discriminate.
    + intros [[? ?] _]; discriminate.
Qed.

Lemma initialValues_dom_plain config :
  config !! "__proto__" = None -> dom (initialValues config) = dom config.
Proof.
  intros Hp. rewrite initialValues_dom. apply set_eq. intros k.
  rewrite elem_of_difference, elem_of_singleton. split; [by intros [? _]|].
  intros Hk. split; [exact Hk|]. intros ->.
  apply elem_of_dom in Hk as [f Hf]. congruence.
Qed.


Lemma validateField_verdict config vals name :
  validateField config vals name (vals !! name) = Normal (verdict config vals name).
Proof.
  unfold verdict.
  destruct (validateField_returns config vals name (vals !! name)) as [e ->].
  reflexivity.
Qed.

(** A read of an own key, or of a key that [Object.prototype] does not
    have, gives the stored string or [undefined]. *)
Lemma validateFieldOn_get config vals name :
  is_Some (vals !! name) ∨ member name ObjectPrototypeMembers = None ->
  validateFieldOn config vals name (get vals name)
    = validateField config vals name (vals !! name).
Proof.
  unfold get. destruct (vals !! name) as [s|] eqn:Hv; [reflexivity|].
  intros [[? ?]| ->]; [discriminate | reflexivity].
Qed.

Lemma validateAll_step_verdict config vals errs valid name :
  name ≠ "__proto__" ->
  is_Some (vals !! name) ∨ member name ObjectPrototypeMembers = None ->
  validateAll_step config vals (Normal (errs, valid)) name
    = Normal (<[name := verdict config vals name]> errs,
              if truthy (verdict config vals name) then false else valid).
Proof.
  intros Hne Hown. unfold validateAll_step. simpl.
  rewrite (validateFieldOn_get config vals name Hown), validateField_verdict. simpl.
  by rewrite (assign_other errs name _ Hne).
Qed.

Lemma validateAll_fold config vals (l : list string) :
  (∀ n, n ∈ l ->
        n ≠ "__proto__"
        ∧ (is_Some (vals !! n) ∨ member n ObjectPrototypeMembers = None)) ->
  ∀ errs valid,
    foldl (validateAll_step config vals) (Normal (errs, valid)) l
      = Normal (foldl (fun e n => <[n := verdict config vals n]> e) errs l,
                valid && forallb (fun n => negb (truthy (verdict config vals n))) l).
Proof.
  induction l as [|n l IH]; intros Hl errs valid; cbn [foldl forallb].
  - by rewrite andb_true_r.
  - destruct (Hl n ltac:(apply elem_of_cons; by left)) as [Hne Hown].
    rewrite (validateAll_step_verdict config vals errs valid n Hne Hown), IH.
    + f_equal. f_equal. destruct (truthy (verdict config vals n)), valid; reflexivity.
    + intros m Hm. apply Hl, elem_of_cons. by right.
Qed.

(** On a well-keyed store [validateAll] replaces the error store by
    one entry per config key and reports whether every computed entry
    is falsy. *)
Lemma validateAll_spec config st :
  well_keyed config (values st) ->
  ∃ errs valid,
    validateAll config st = Normal (mkState (values st) errs, valid)
    ∧ (∀ k, errs !! k = (fun _ => verdict config (values st) k) <$> config !! k)
    ∧ (valid = true ↔
       ∀ k, is_Some (config !! k) -> truthy (verdict config (values st) k) = false).
Proof.
  intros Hwk. unfold validateAll. rewrite validateAll_fold.
  2:{ intros n Hn. apply Hwk, elem_of_ObjectKeys, Hn. }
  simpl. eexists _, _. split; [reflexivity|]. split.
  - intros k. rewrite foldl_insert_lookup. case_decide as Hin.
    + apply elem_of_ObjectKeys in Hin as [f ->]. reflexivity.
    + rewrite lookup_empty. destruct (config !! k) eqn:Hk; [|reflexivity].
      exfalso. apply Hin, elem_of_ObjectKeys. eauto.
  - rewrite forallb_forall. split.
    + intros H k Hk. apply negb_true_iff, H, list_elem_of_In, elem_of_ObjectKeys, Hk.
    + intros H k Hk. apply negb_true_iff, H, elem_of_ObjectKeys, list_elem_of_In, Hk.
Qed.

Lemma validateAll_returns config st :
  well_keyed config (values st) -> returns (validateAll config st).
Proof.
  intros Hwk. destruct (validateAll_spec config st Hwk) as (errs & valid & -> & _).
  apply returns_Normal.
Qed.

(** [validateAll] reads the value store only and leaves it alone. *)
Lemma validateAll_inv config st st' valid :
  validateAll config st = Normal (st', valid) ->
  values st' = values st
  ∧ foldl (validateAll_step config (values st)) (Normal (∅, true)) (ObjectKeys config)
      = Normal (errors st', valid).
Proof.
  unfold validateAll.
  destruct (foldl _ _ _) as [[errs v]|]; simpl; [|discriminate].
  intros [= <- <-]. split; reflexivity.
Qed.

Lemma validateAll_step_Throw config vals (l : list string) :
  foldl (validateAll_step config vals) Throw l = Throw.
Proof. induction l as [|n l IH]; [reflexivity | exact IH]. Qed.

(** Whatever the store, an entry of the rebuilt error store sits under
    a config key other than [__proto__] and holds the result of
    [validateField] on the value read for that key. *)
Lemma validateAll_fold_entries config vals (l : list string) :
  ∀ errs valid errs' valid',
    foldl (validateAll_step config vals) (Normal (errs, valid)) l
      = Normal (errs', valid') ->
    ∀ k e, errs' !! k = Some e ->
      errs !! k = Some e
      ∨ (k ∈ l ∧ k ≠ "__proto__"
         ∧ validateFieldOn config vals k (get vals k) = Normal e).
Proof.
  induction l as [|n l IH]; intros errs valid errs' valid' Hfold k e Hk.
  - injection Hfold as <- _. by left.
  - cbn [foldl] in Hfold. unfold validateAll_step at 2 in Hfold. simpl in Hfold.
    destruct (validateFieldOn config vals n (get vals n)) as [e0|] eqn:He0; simpl in Hfold;
      [|rewrite validateAll_step_Throw in Hfold; discriminate Hfold].
    destruct (IH _ _ _ _ Hfold k e Hk) as [Hacc|(Hin & Hne & Hres)].
    + rewrite assign_lookup in Hacc.
      destruct (decide (k = n ∧ k ≠ "__proto__")) as [[-> Hne]|_].
      * injection Hacc as <-. right. split; [apply elem_of_cons; by left | by split].
      * by left.
    + right. split; [apply elem_of_cons; by right | by split].
Qed.

(** ** reset followed by validateAll *)






(** ** Single-field updates *)

Lemma handleChange_eq config st name value :
  ∃ e, validateField config (values st) name (Some value) = Normal e
       ∧ handleChange config st name value
           = Normal (mkState (<[name := value]> (values st))
                             (<[name := e]> (errors st))).
Proof.
  destruct (validateField_returns config (values st) name (Some value)) as [e He].
  exists e. split; [exact He|]. unfold handleChange. rewrite He. reflexivity.
Qed.

Lemma bothTyped_reachable : reachable passwordPair bothTyped.
Proof.
  apply (reachable_step _ (mkState (<["password" := "X1"]> (initialValues passwordPair))
                                   (<["password" := None]> ∅))
           (Update "confirm" "X1")).
  - apply (reachable_step _ (init passwordPair) (Update "password" "X1")).
    + apply reachable_init.
    + vm_compute. reflexivity.
  - vm_compute. reflexivity.
Qed.

(** C6. For a configured field [n], [update(n, v)] sets [values[n]]
    to [v] and [errors[n]] to [validateField(n, v)] and leaves the
    value and the error entry of every other field as they were.  In
    particular a repeatPassword field matching [n] is not revalidated:
    in a reachable state its entry can stay [null] although its value
    no longer matches. *)
Theorem update_touches_only_its_field :
  (∀ (config : gmap string FieldConfig) st n v,
     is_Some (config !! n) ->
     ∃ e st',
       validateField config (values st) n (Some v) = Normal e
       ∧ handleChange config st n v = Normal st'
       ∧ values st' !! n = Some v
       ∧ errors st' !! n = Some e
       ∧ ∀ m, m ≠ n ->
           values st' !! m = values st !! m ∧ errors st' !! m = errors st !! m)
  ∧ (∃ st',
       reachable passwordPair bothTyped
       ∧ handleChange passwordPair bothTyped "password" "X2" = Normal st'
       ∧ errors st' !! "confirm" = Some None
       ∧ validateField passwordPair (values st') "confirm" (values st' !! "confirm")
           = Normal (Some "Passwords do not match.")).
Proof.
  split.
  - intros config st n v _.
    destruct (handleChange_eq config st n v) as (e & He & Hrun).
    eexists e, _. split; [exact He|]. split; [exact Hrun|]. simpl.
    rewrite !lookup_insert_eq. repeat split; rewrite lookup_insert_ne; congruence.
  - eexists. split; [exact bothTyped_reachable|].
    split; [vm_compute; reflexivity|]. split; vm_compute; reflexivity.
Qed.

Lemma update_touches_only_its_field_witness :
  ∃ e st',
    validateField passwordPair (values bothTyped) "confirm" (Some "X2") = Normal e
    ∧ handleChange passwordPair bothTyped "confirm" "X2" = Normal st'
    ∧ values st' !! "confirm" = Some "X2"
    ∧ errors st' !! "confirm" = Some e
    ∧ ∀ m, m ≠ "confirm" ->
        values st' !! m = values bothTyped !! m ∧ errors st' !! m = errors bothTyped !! m.
Proof.
  apply (proj1 update_touches_only_its_field passwordPair bothTyped "confirm" "X2").
  exists (mkField repeatPassword None None None None None None None (Some "password")).
  reflexivity.
Defined.

(** C9. For a name [n] that is not in the config, [update(n, v)]
    still writes both stores: afterwards [values[n] = v] and
    [errors[n] = null]; every other key keeps its entries, nothing is
    thrown, and the stores differ from the previous ones unless they
    already held exactly these entries. *)
Theorem update_unconfigured_writes_stores (config : gmap string FieldConfig)
    (st : FormState) (n v : string) :
  config !! n = None ->
  validateField config (values st) n (Some v) = Normal None
  ∧ ∃ st',
      handleChange config st n v = Normal st'
      ∧ values st' = <[n := v]> (values st)
      ∧ errors st' = <[n := None]> (errors st)
      ∧ values st' !! n = Some v
      ∧ errors st' !! n = Some None
      ∧ (∀ k, is_Some (config !! k) ->
           values st' !! k = values st !! k ∧ errors st' !! k = errors st !! k)
      ∧ (values st !! n ≠ Some v -> values st' ≠ values st)
      ∧ (errors st !! n ≠ Some None -> errors st' ≠ errors st).
Proof.
  intros Hn.
  assert (Hv : validateField config (values st) n (Some v) = Normal None).
  { unfold validateField. rewrite Hn. reflexivity. }
  split; [exact Hv|].
  eexists. split; [unfold handleChange; rewrite Hv; reflexivity|]. simpl.
  rewrite !lookup_insert_eq.
  do 4 (split; [reflexivity|]). split; [|split].
  - intros k [f Hk].
    assert (Hne : n ≠ k) by (intros ->; congruence).
    split; rewrite lookup_insert_ne; (reflexivity || exact Hne).
  - intros Hne Heq. apply Hne. rewrite <- Heq. apply lookup_insert_eq.
  - intros Hne Heq. apply Hne. rewrite <- Heq. apply lookup_insert_eq.
Qed.

Lemma update_unconfigured_writes_stores_witness :
  validateField passwordPair (values (init passwordPair)) "ghost" (Some "X1") = Normal None
  ∧ ∃ st',
      handleChange passwordPair (init passwordPair) "ghost" "X1" = Normal st'
      ∧ values st' = <["ghost" := "X1"]> (values (init passwordPair))
      ∧ errors st' = <["ghost" := None]> (errors (init passwordPair))
      ∧ values st' !! "ghost" = Some "X1"
      ∧ errors st' !! "ghost" = Some None
      ∧ (∀ k, is_Some (passwordPair !! k) ->
           values st' !! k = values (init passwordPair) !! k
           ∧ errors st' !! k = errors (init passwordPair) !! k)
      ∧ (values (init passwordPair) !! "ghost" ≠ Some "X1" ->
         values st' ≠ values (init passwordPair))
      ∧ (errors (init passwordPair) !! "ghost" ≠ Some None ->
         errors st' ≠ errors (init passwordPair)).
Proof.
  apply (update_unconfigured_writes_stores passwordPair (init passwordPair) "ghost" "X1").
  reflexivity.
Defined.

(** ** The key set of the value store *)

Lemma run_values_dom config st op st' :
  run config st op = Normal st' ->
  dom (values st') =
    match op with
    | Update n _ => {[ n ]} ∪ dom (values st)
    | ValidateAll => dom (values st)
    | Reset => dom config ∖ {[ "__proto__" ]}
    end.
Proof.
  destruct op as [n v| |]; simpl; intros Hrun.
  - destruct (handleChange_eq config st n v) as (e & _ & Heq).
    rewrite Heq in Hrun. injection Hrun as <-. simpl. apply dom_insert_L.
  - destruct (validateAll config st) as [[st1 valid]|] eqn:Hall; [|discriminate Hrun].
    simpl in Hrun. injection Hrun as <-.
    by rewrite (proj1 (validateAll_inv config st st1 valid Hall)).
  - injection Hrun as <-. simpl. apply initialValues_dom.
Qed.

Lemma reachable_values_cover config st :
  reachable config st -> dom config ∖ {[ "__proto__" ]} ⊆ dom (values st).
Proof.
  intros Hreach. induction Hreach as [|st op st' _ IH Hrun].
  - simpl. rewrite initialValues_dom. reflexivity.
  - rewrite (run_values_dom config st op st' Hrun).
    destruct op; [apply union_subseteq_r', IH | exact IH | reflexivity].
Qed.

(** In a reachable state of a config without a field named
    [__proto__] every field has an entry in the value store. *)
Lemma reachable_well_keyed config st :
  config !! "__proto__" = None -> reachable config st -> well_keyed config (values st).
Proof.
  intros Hp Hreach k [f Hk].
  assert (Hne : k ≠ "__proto__") by (intros ->; congruence).
  split; [exact Hne|]. left. apply elem_of_dom, (reachable_values_cover config st Hreach).
  apply elem_of_difference. split; [apply elem_of_dom; eauto|].
  by rewrite elem_of_singleton.
Qed.





(** ** Dangling matchField *)

Lemma danglingTyped_reachable : reachable danglingConfig danglingTyped.
Proof.
  apply (reachable_step _ (init danglingConfig) (Update "ghost" "X1")).
  - apply reachable_init.
  - vm_compute. reflexivity.
Qed.

(** C8 as stated fails: once an update has stored a value under the
    dangling key, a repeat password equal to it is accepted. *)
Lemma dangling_mismatch_counterexample : ¬ dangling_mismatch_as_stated.
Proof.
  intros H.
  assert (Hf : danglingConfig !! "confirm"
               = Some (mkField repeatPassword None None None None None None None
                         (Some "ghost"))) by reflexivity.
  specialize (H danglingConfig danglingTyped "confirm" _ "ghost" "X1"
                danglingTyped_reachable Hf eq_refl eq_refl eq_refl).
  assert (Hne : "X1" ≠ "") by discriminate.
  specialize (H Hne). vm_compute in H. discriminate H.
Qed.

Lemma repeatPasswordRules_missing vals field s :
  type field = repeatPassword -> s ≠ "" ->
  vals !! or_string (matchField field) "password" = None ->
  repeatPasswordRules vals field (Some s) = Normal (Some "Passwords do not match.").
Proof.
  intros Ht Hs Hmiss. unfold repeatPasswordRules.
  rewrite Ht, (truthy_nonempty s Hs), Hmiss. reflexivity.
Qed.

(** C8 (amended). For a repeatPassword field and a non-empty value,
    [validateField] returns "Passwords do not match." whenever the
    value store has no entry under the key compared with
    ([matchField], or "password" when that is absent or empty); this
    is the case for a non-empty dangling [matchField] in every state
    whose value keys are config keys.  [validateField] on a string or
    [undefined] and [update] never throw, for any config, state, name
    and value; and for a config without a field named [__proto__]
    no operation throws in any state reachable from the initial
    one. *)
Theorem dangling_match_mismatch_and_no_throw :
  (∀ (config : gmap string FieldConfig) (vals : gmap string string) name field s,
     config !! name = Some field -> type field = repeatPassword -> s ≠ "" ->
     vals !! or_string (matchField field) "password" = None ->
     validateField config vals name (Some s) = Normal (Some "Passwords do not match."))
  ∧ (∀ (config : gmap string FieldConfig) (vals : gmap string string)
       name field target s,
       config !! name = Some field -> type field = repeatPassword ->
       matchField field = Some target -> target ≠ "" -> config !! target = None ->
       dom vals ⊆ dom config -> s ≠ "" ->
       validateField config vals name (Some s) = Normal (Some "Passwords do not match."))
  ∧ (∀ (config : gmap string FieldConfig) st name (value : jsvalue) (v : string),
       returns (validateField config (values st) name value)
       ∧ returns (handleChange config st name v))
  ∧ (∀ (config : gmap string FieldConfig) st op,
       config !! "__proto__" = None -> reachable config st ->
       returns (validateAll config st) ∧ returns (run config st op)).
Proof.
  assert (Hmiss : ∀ (config : gmap string FieldConfig) (vals : gmap string string)
                    name field s,
             config !! name = Some field -> type field = repeatPassword -> s ≠ "" ->
             vals !! or_string (matchField field) "password" = None ->
             validateField config vals name (Some s)
               = Normal (Some "Passwords do not match.")).
  { intros config vals name field s Hf Ht Hs Hnone.
    rewrite (nonempty_dispatch config vals name field s Hf Hs), Ht.
    apply repeatPasswordRules_missing; assumption. }
  split; [exact Hmiss|]. split; [|split].
  - intros config vals name field target s Hf Ht Hmf Htarget Hdangling Hdom Hs.
    apply (Hmiss config vals name field s Hf Ht Hs).
    rewrite Hmf. unfold or_string. rewrite (truthy_nonempty target Htarget). simpl.
    apply not_elem_of_dom. intros Hin. apply Hdom in Hin.
    apply elem_of_dom in Hin as [f Hin]. congruence.
  - intros config st name value v.
    split; [apply validateField_returns | apply handleChange_returns].
  - intros config st op Hproto Hreach.
    pose proof (validateAll_returns config st (reachable_well_keyed config st Hproto Hreach))
      as Hall.
    split; [exact Hall|].
    destruct op as [n w| |]; simpl.
    + apply handleChange_returns.
    + destruct Hall as [r ->]. apply returns_Normal.
    + apply returns_Normal.
Qed.

Lemma dangling_match_mismatch_and_no_throw_witness :
  validateField danglingConfig (initialValues danglingConfig) "confirm" (Some "X1")
    = Normal (Some "Passwords do not match.")
  ∧ returns (validateAll danglingConfig danglingTyped).
Proof.
  split.
  - apply (proj1 (proj2 dangling_match_mismatch_and_no_throw)
             danglingConfig (initialValues danglingConfig) "confirm"
             (mkField repeatPassword None None None None None None None (Some "ghost"))
             "ghost" "X1").
    + reflexivity.
    + reflexivity.
    + reflexivity.
    + discriminate.
    + reflexivity.
    + rewrite initialValues_dom_plain by reflexivity. reflexivity.
    + discriminate.
  - apply (proj2 (proj2 (proj2 dangling_match_mismatch_and_no_throw))
             danglingConfig danglingTyped ValidateAll).
    + reflexivity.
    + apply (reachable_step _ (init danglingConfig) (Update "ghost" "X1")).
      * apply reachable_init.
      * vm_compute. reflexivity.
Defined.

(** With a password field named [__proto__] that asks for a special
    character, [validateAll] throws already in the initial state: the
    value read for the field is [Object.prototype], on which
    [value.match] is not a function. *)
Lemma validateAll_throws_on_inherited_value :
  validateAll protoPassword (init protoPassword) = Throw.
Proof. vm_compute. reflexivity. Qed.

(** * Further properties of the code *)

(** ** The matcher decides the language of a regular expression *)

Lemma append_nil_r (s : string) : s ++ "" = s.
Proof. induction s as [|c s IH]; [reflexivity|]. change (String c (s ++ "") = String c s). by rewrite IH. Qed.

Lemma append_assoc (s1 s2 s3 : string) : (s1 ++ s2) ++ s3 = s1 ++ (s2 ++ s3).
Proof.
  induction s1 as [|c s1 IH]; [reflexivity|].
  change (String c ((s1 ++ s2) ++ s3) = String c (s1 ++ (s2 ++ s3))). by rewrite IH.
Qed.

Lemma append_eq_nil (s1 s2 : string) : s1 ++ s2 = "" -> s1 = "" ∧ s2 = "".
Proof. destruct s1; [intros H; split; [reflexivity | exact H] | discriminate]. Qed.

Lemma append_eq_cons (s1 s2 : string) c s :
  s1 ++ s2 = String c s ->
  (s1 = "" ∧ s2 = String c s) ∨ (∃ s1', s1 = String c s1' ∧ s = s1' ++ s2).
Proof.
  destruct s1 as [|d s1]; intros H.
  - left. split; [reflexivity | exact H].
  - right. change (String d (s1 ++ s2) = String c s) in H.
    injection H as -> <-. exists s1. split; reflexivity.
Qed.

Lemma matches_cat_inv (r1 r2 : regex) (s : string) :
  matches (Cat r1 r2) s -> ∃ s1 s2, s = s1 ++ s2 ∧ matches r1 s1 ∧ matches r2 s2.
Proof. intros H. inversion H; subst. eauto. Qed.

Lemma nullable_matches (r : regex) : nullable r = true ↔ matches r "".
Proof.
  split.
  - induction r as [| |p|r1 IH1 r2 IH2|r1 IH1 r2 IH2|r IH]; simpl; intros H;
      try discriminate H.
    + constructor.
    + apply andb_true_iff in H as [H1 H2].
      exact (matches_cat r1 r2 "" "" (IH1 H1) (IH2 H2)).
    + apply orb_true_iff in H as [H|H];
        [apply matches_alt_l | apply matches_alt_r]; auto.
    + constructor.
  - intros H. remember "" as s eqn:Hs. induction H as
      [|p c Hp|r1 r2 s1 s2 _ IH1 _ IH2|r1 r2 s _ IH|r1 r2 s _ IH|r|r s1 s2 _ _ _ _];
      simpl; try reflexivity.
    + discriminate Hs.
    + apply append_eq_nil in Hs as [-> ->].
      by rewrite IH1, IH2.
    + by rewrite IH.
    + rewrite IH by assumption. apply orb_true_r.
Qed.

Lemma matches_star_cons_inv (r : regex) c s :
  matches (Star r) (String c s) ->
  ∃ s1 s2, s = s1 ++ s2 ∧ matches r (String c s1) ∧ matches (Star r) s2.
Proof.
  intros H. remember (Star r) as r' eqn:Hr. remember (String c s) as s' eqn:Hs.
  revert s Hs. induction H as
    [|p d Hp|r1 r2 s1 s2 _ _ _ _|r1 r2 s0 _ _|r1 r2 s0 _ _|r0|r0 s1 s2 H1 _ H2 IH2];
    intros s Hs; try discriminate Hr; try discriminate Hs.
  injection Hr as ->.
  apply append_eq_cons in Hs as [[-> ->]|(s1' & -> & ->)].
  - exact (IH2 eq_refl s eq_refl).
  - exists s1', s2. auto.
Qed.

Lemma deriv_matches c (r : regex) : ∀ s, matches (deriv c r) s ↔ matches r (String c s).
Proof.
  induction r as [| |p|r1 IH1 r2 IH2|r1 IH1 r2 IH2|r IH]; intros s; simpl.
  - split; intros H; inversion H.
  - split; intros H; inversion H.
  - destruct (p c) eqn:Hp; split; intros H; inversion H; subst.
    + by constructor.
    + constructor.
    + congruence.
  - assert (Hcat : matches (Cat (deriv c r1) r2) s ↔
                   ∃ s1 s2, s = s1 ++ s2 ∧ matches r1 (String c s1) ∧ matches r2 s2).
    { split.
      - intros H. apply matches_cat_inv in H as (s1 & s2 & -> & H1 & H2).
        exists s1, s2. split; [reflexivity|]. split; [by apply IH1 | assumption].
      - intros (s1 & s2 & -> & H1 & H2). constructor; [by apply IH1 | assumption]. }
    assert (Hsplit : matches (Cat r1 r2) (String c s) ↔
                     (matches r1 "" ∧ matches r2 (String c s))
                     ∨ ∃ s1 s2, s = s1 ++ s2 ∧ matches r1 (String c s1) ∧ matches r2 s2).
    { split.
      - intros H. apply matches_cat_inv in H as (s1 & s2 & Heq & H1 & H2).
        symmetry in Heq.
        apply append_eq_cons in Heq as [[-> ->]|(s1' & -> & ->)]; [left|right]; eauto.
      - intros [[H1 H2]|(s1 & s2 & -> & H1 & H2)].
        + exact (matches_cat r1 r2 "" (String c s) H1 H2).
        + exact (matches_cat r1 r2 (String c s1) s2 H1 H2). }
    rewrite Hsplit. destruct (nullable r1) eqn:Hn.
    + split.
      * intros H. inversion H; subst.
        -- right. by apply Hcat.
        -- left. split; [by apply nullable_matches | by apply IH2].
      * intros [[_ H2]|H].
        -- apply matches_alt_r. by apply IH2.
        -- apply matches_alt_l. by apply Hcat.
    + rewrite Hcat. split; [by right|].
      intros [[H1 _]|H]; [|exact H].
      apply nullable_matches in H1. congruence.
  - split.
    + intros H. inversion H; subst;
        [apply matches_alt_l; by apply IH1 | apply matches_alt_r; by apply IH2].
    + intros H. inversion H; subst;
        [apply matches_alt_l; by apply IH1 | apply matches_alt_r; by apply IH2].
  - split.
    + intros H. apply matches_cat_inv in H as (s1 & s2 & -> & H1 & H2).
      exact (matches_star_cons r (String c s1) s2 (proj1 (IH s1) H1) H2).
    + intros H. apply matches_star_cons_inv in H as (s1 & s2 & -> & H1 & H2).
      constructor; [by apply IH | assumption].
Qed.

Lemma test_anchored_matches (r : regex) (s : string) :
  test_anchored r s = true ↔ matches r s.
Proof.
  revert r. induction s as [|c s IH]; intros r; simpl.
  - apply nullable_matches.
  - rewrite IH. apply deriv_matches.
Qed.

Lemma append_cons c (s1 s2 : string) : String c s1 ++ s2 = String c (s1 ++ s2).
Proof. reflexivity. Qed.

Lemma all_chars_app p (s1 s2 : string) :
  all_chars p (s1 ++ s2) = all_chars p s1 && all_chars p s2.
Proof.
  induction s1 as [|c s1 IH]; [reflexivity|].
  rewrite append_cons. simpl. rewrite IH. apply andb_assoc.
Qed.

Lemma has_char_app p (s1 s2 : string) :
  has_char p (s1 ++ s2) = has_char p s1 || has_char p s2.
Proof.
  induction s1 as [|c s1 IH]; [reflexivity|].
  rewrite append_cons. simpl. rewrite IH. apply orb_assoc.
Qed.

Lemma matches_class_inv p (s : string) :
  matches (Class p) s -> ∃ c, s = String c "" ∧ p c = true.
Proof. intros H. inversion H; subst. eauto. Qed.

Lemma matches_star_class p (s : string) :
  matches (Star (Class p)) s ↔ all_chars p s = true.
Proof.
  split.
  - intros H. remember (Star (Class p)) as r eqn:Hr.
    induction H as [| | | | | |r0 s1 s2 H1 _ _ IH2]; try discriminate Hr; [reflexivity|].
    injection Hr as ->. apply matches_class_inv in H1 as (c & -> & Hc).
    rewrite all_chars_app. simpl. by rewrite Hc, (IH2 eq_refl).
  - induction s as [|c s IH]; simpl; intros H; [constructor|].
    apply andb_true_iff in H as [Hc Hs].
    exact (matches_star_cons (Class p) (String c "") s (matches_class p c Hc) (IH Hs)).
Qed.

Lemma matches_plus_class p (s : string) :
  matches (plus (Class p)) s ↔ s ≠ "" ∧ all_chars p s = true.
Proof.
  unfold plus. split.
  - intros H. apply matches_cat_inv in H as (s1 & s2 & -> & H1 & H2).
    apply matches_class_inv in H1 as (c & -> & Hc). apply matches_star_class in H2.
    split; [discriminate|]. rewrite all_chars_app. simpl. by rewrite Hc, H2.
  - intros [Hne H]. destruct s as [|c s]; [congruence|]. simpl in H.
    apply andb_true_iff in H as [Hc Hs].
    exact (matches_cat (Class p) (Star (Class p)) (String c "") s
             (matches_class p c Hc) (proj2 (matches_star_class p s) Hs)).
Qed.

Lemma all_chars_any (s : string) : all_chars any s = true.
Proof. induction s; [reflexivity | assumption]. Qed.

Lemma has_char_split p (s : string) :
  has_char p s = true ↔ ∃ s1 c s2, s = s1 ++ String c s2 ∧ p c = true.
Proof.
  split.
  - induction s as [|c s IH]; simpl; [discriminate|].
    destruct (p c) eqn:Hc.
    + intros _. exists "", c, s. split; [reflexivity | assumption].
    + simpl. intros H. destruct (IH H) as (s1 & d & s2 & -> & Hd).
      exists (String c s1), d, s2. split; [reflexivity | assumption].
  - intros (s1 & c & s2 & -> & Hc). rewrite has_char_app. simpl. rewrite Hc.
    apply orb_true_r.
Qed.

(** [/[cls]/.test(s)] holds exactly when some character of [s] is in
    the class. *)
Lemma test_class p (s : string) : test (Class p) s = has_char p s.
Proof.
  apply eq_true_iff_eq. unfold test. rewrite test_anchored_matches, has_char_split.
  split.
  - intros H. apply matches_cat_inv in H as (s1 & s' & -> & _ & H).
    apply matches_cat_inv in H as (sc & s2 & -> & Hc & _).
    apply matches_class_inv in Hc as (c & -> & Hc). exists s1, c, s2. auto.
  - intros (s1 & c & s2 & -> & Hc).
    apply matches_cat; [apply matches_star_class, all_chars_any|].
    apply (matches_cat (Class p) (Star (Class any)) (String c "") s2).
    + by constructor.
    + apply matches_star_class, all_chars_any.
Qed.

(** [/^[cls]+$/.test(s)] holds exactly when [s] is non-empty and all
    its characters are in the class. *)
Lemma test_anchored_plus_class p (s : string) :
  test_anchored (plus (Class p)) s = negb (String.eqb s "") && all_chars p s.
Proof.
  apply eq_true_iff_eq. rewrite test_anchored_matches, matches_plus_class.
  rewrite andb_true_iff, negb_true_iff, String.eqb_neq. reflexivity.
Qed.

Lemma has_char_complement p (s : string) :
  has_char (complement p) s = negb (all_chars p s).
Proof.
  induction s as [|c s IH]; [reflexivity|]. simpl. rewrite IH. unfold complement.
  by rewrite negb_andb.
Qed.

(** ** Text, textarea and number rules *)

Lemma above_Normal (m : nat) (bound : option Z) :
  above (Normal m) bound = Normal (failing_max m bound).
Proof.
  unfold above, failing_max. destruct bound as [n|]; [|reflexivity].
  destruct (n =? 0)%Z; reflexivity.
Qed.

Lemma textRules_eval field s :
  type field = text -> s ≠ "" ->
  textRules field (Some s)
    = Normal (if all_chars digit s then Some "Text cannot be only numbers."
              else if failing_min (String.length s) (minLength field)
              then Some ("Text must be at least " ++ show_num (minLength field)
                           ++ " characters.")
              else if failing_max (String.length s) (maxLength field)
              then Some ("Text must be at most " ++ show_num (maxLength field)
                           ++ " characters.")
              else None).
Proof.
  intros Ht Hs. unfold textRules, onlyDigits.
  rewrite Ht, (truthy_nonempty s Hs). simpl bool_decide. simpl andb. cbv iota.
  simpl ToString. unfold get_length.
  rewrite test_anchored_plus_class, below_Normal, above_Normal, !return_if_Normal.
  apply String.eqb_neq in Hs. rewrite Hs. simpl negb. rewrite andb_true_l.
  destruct (all_chars digit s), (failing_min (String.length s) (minLength field)),
    (failing_max (String.length s) (maxLength field)); reflexivity.
Qed.

Lemma numberRules_eval field s :
  type field = number -> s ≠ "" ->
  numberRules field (Some s)
    = Normal (if negb (all_chars digit s) then Some "Only numbers are allowed."
              else if failing_min (String.length s) (minLength field)
              then Some ("Number must be at least " ++ show_num (minLength field)
                           ++ " digits.")
              else if failing_max (String.length s) (maxLength field)
              then Some ("Number must be at most " ++ show_num (maxLength field)
                           ++ " digits.")
              else None).
Proof.
  intros Ht Hs. unfold numberRules, nonDigit.
  rewrite Ht, (truthy_nonempty s Hs). simpl bool_decide. simpl andb. cbv iota.
  simpl ToString. unfold get_length.
  rewrite test_class, has_char_complement, below_Normal, above_Normal, !return_if_Normal.
  destruct (all_chars digit s), (failing_min (String.length s) (minLength field)),
    (failing_max (String.length s) (maxLength field)); reflexivity.
Qed.

Lemma textareaRules_eval field s :
  type field = textarea -> s ≠ "" ->
  textareaRules field (Some s)
    = Normal (if failing_min (String.length s) (minLength field)
              then Some ("Textarea must be at least " ++ show_num (minLength field)
                           ++ " characters.")
              else if failing_max (String.length s) (maxLength field)
              then Some ("Textarea must be at most " ++ show_num (maxLength field)
                           ++ " characters.")
              else None).
Proof.
  intros Ht Hs. unfold textareaRules.
  rewrite Ht, (truthy_nonempty s Hs). simpl bool_decide. simpl andb. cbv iota.
  unfold get_length. rewrite below_Normal, above_Normal, !return_if_Normal.
  destruct (failing_min (String.length s) (minLength field)),
    (failing_max (String.length s) (maxLength field)); reflexivity.
Qed.

(** X1. A number field accepts a non-empty value exactly when every
    character is a digit and the number of characters respects the
    non-zero bounds; a value with any other character gets "Only
    numbers are allowed." whatever the bounds are. *)
Theorem number_accepts_bounded_digit_strings (config : gmap string FieldConfig)
    (vals : gmap string string) name field s :
  config !! name = Some field -> type field = number -> s ≠ "" ->
  (all_chars digit s = false ->
   validateField config vals name (Some s) = Normal (Some "Only numbers are allowed."))
  ∧ (validateField config vals name (Some s) = Normal None ↔
     all_chars digit s = true
     ∧ (∀ n, minLength field = Some n -> n ≠ 0%Z -> (n <= Z.of_nat (String.length s))%Z)
     ∧ (∀ n, maxLength field = Some n -> n ≠ 0%Z -> (Z.of_nat (String.length s) <= n)%Z)).
Proof.
  intros Hf Ht Hs.
  rewrite (nonempty_dispatch config vals name field s Hf Hs), Ht,
    (numberRules_eval field s Ht Hs).
  split; [intros ->; reflexivity|].
  assert (Hmin : failing_min (String.length s) (minLength field) = false ↔
                 ∀ n, minLength field = Some n -> n ≠ 0%Z ->
                      (n <= Z.of_nat (String.length s))%Z).
  { unfold failing_min. destruct (minLength field) as [n|].
    - rewrite andb_false_iff, negb_false_iff, Z.eqb_eq, Z.ltb_ge. split.
      + intros [H0|Hle] m [= <-] Hm; [congruence | exact Hle].
      + intros H. destruct (decide (n = 0%Z)) as [?|Hn]; [by left|].
        right. exact (H n eq_refl Hn).
    - split; [intros _ n; discriminate | reflexivity]. }
  assert (Hmax : failing_max (String.length s) (maxLength field) = false ↔
                 ∀ n, maxLength field = Some n -> n ≠ 0%Z ->
                      (Z.of_nat (String.length s) <= n)%Z).
  { unfold failing_max. destruct (maxLength field) as [n|].
    - rewrite andb_false_iff, negb_false_iff, Z.eqb_eq, Z.gtb_ltb, Z.ltb_ge. split.
      + intros [H0|Hle] m [= <-] Hm; [congruence | exact Hle].
      + intros H. destruct (decide (n = 0%Z)) as [?|Hn]; [by left|].
        right. exact (H n eq_refl Hn).
    - split; [intros _ n; discriminate | reflexivity]. }
  rewrite <- Hmin, <- Hmax.
  destruct (all_chars digit s), (failing_min (String.length s) (minLength field)),
    (failing_max (String.length s) (maxLength field)); simpl;
    split; try discriminate; try (intros (? & ? & ?); discriminate); auto.
Qed.

Lemma number_accepts_bounded_digit_strings_witness :
  validateField pinForm ∅ "pin" (Some "12a") = Normal (Some "Only numbers are allowed.").
Proof.
  refine (proj1 (number_accepts_bounded_digit_strings pinForm ∅ "pin" pinField "12a"
                   _ _ _) _); (reflexivity || discriminate).
Defined.

(** X2. No non-empty value is accepted both by a text field and by a
    number field, whatever their bounds: a value made of digits only
    gets "Text cannot be only numbers." from the text field, and any
    other value gets "Only numbers are allowed." from the number
    field. *)
Theorem text_and_number_are_disjoint (config : gmap string FieldConfig)
    (vals : gmap string string) tname tfield nname nfield s :
  config !! tname = Some tfield -> type tfield = text ->
  config !! nname = Some nfield -> type nfield = number ->
  s ≠ "" ->
  (all_chars digit s = true ∧
   validateField config vals tname (Some s) = Normal (Some "Text cannot be only numbers."))
  ∨ (all_chars digit s = false ∧
     validateField config vals nname (Some s) = Normal (Some "Only numbers are allowed.")).
Proof.
  intros Htf Htt Hnf Hnt Hs.
  rewrite (nonempty_dispatch config vals tname tfield s Htf Hs), Htt,
    (textRules_eval tfield s Htt Hs).
  rewrite (nonempty_dispatch config vals nname nfield s Hnf Hs), Hnt,
    (numberRules_eval nfield s Hnt Hs).
  destruct (all_chars digit s); [left | right]; split; reflexivity.
Qed.

Lemma text_and_number_are_disjoint_witness :
  (all_chars digit "12345" = true ∧
   validateField pinForm ∅ "nick" (Some "12345")
     = Normal (Some "Text cannot be only numbers."))
  ∨ (all_chars digit "12345" = false ∧
     validateField pinForm ∅ "pin" (Some "12345")
       = Normal (Some "Only numbers are allowed.")).
Proof.
  apply (text_and_number_are_disjoint pinForm ∅ "nick" (plain text) "pin" pinField "12345");
    (reflexivity || discriminate).
Defined.

(** ** The shape of an accepted email *)

Lemma all_chars_weaken (p q : charclass) (s : string) :
  (∀ c, p c = true -> q c = true) -> all_chars p s = true -> all_chars q s = true.
Proof.
  intros Hpq. induction s as [|c s IH]; simpl; [reflexivity|].
  intros H. apply andb_true_iff in H as [Hc Hs]. by rewrite (Hpq c Hc), IH.
Qed.

Lemma has_char_agree (q p1 p2 : charclass) (s : string) :
  (∀ c, q c = true -> p1 c = p2 c) -> all_chars q s = true ->
  has_char p1 s = has_char p2 s.
Proof.
  intros Hq. induction s as [|c s IH]; simpl; [reflexivity|].
  intros H. apply andb_true_iff in H as [Hc Hs]. by rewrite (Hq c Hc), IH.
Qed.

Lemma count_class_app p (s1 s2 : string) :
  count_class p (s1 ++ s2) = count_class p s1 + count_class p s2.
Proof.
  unfold count_class. induction s1 as [|c s1 IH]; [reflexivity|].
  rewrite append_cons. simpl. destruct (p c); simpl; by rewrite IH.
Qed.

Lemma count_class_none (q p : charclass) (s : string) :
  (∀ c, q c = true -> p c = false) -> all_chars q s = true -> count_class p s = 0.
Proof.
  intros Hq. unfold count_class. induction s as [|c s IH]; simpl; [reflexivity|].
  intros H. apply andb_true_iff in H as [Hc Hs]. rewrite (Hq c Hc). exact (IH Hs).
Qed.

Lemma matches_two_or_more_class p (s : string) :
  matches (two_or_more (Class p)) s ↔ 2 <= String.length s ∧ all_chars p s = true.
Proof.
  unfold two_or_more. split.
  - intros H. apply matches_cat_inv in H as (s1 & s2 & -> & H1 & H2).
    apply matches_class_inv in H1 as (c & -> & Hc).
    apply matches_plus_class in H2 as [Hne H2].
    change (String c "" ++ s2) with (String c s2). simpl. rewrite Hc, H2.
    destruct s2; [congruence|]. simpl. split; [lia | reflexivity].
  - intros [Hlen H]. destruct s as [|c s]; [simpl in Hlen; lia|].
    simpl in H. apply andb_true_iff in H as [Hc Hs].
    apply (matches_cat (Class p) (plus (Class p)) (String c "") s).
    + by constructor.
    + apply matches_plus_class. split; [|exact Hs].
      destruct s; [simpl in Hlen; lia | discriminate].
Qed.

Lemma emailRegex_shape (s : string) :
  matches emailRegex s ↔
  ∃ loc dom tld,
    s = loc ++ "@" ++ dom ++ "." ++ tld
    ∧ loc ≠ "" ∧ all_chars (union alnum (one_of "._%+-")) loc = true
    ∧ dom ≠ "" ∧ all_chars (union alnum (one_of ".-")) dom = true
    ∧ 2 <= String.length tld ∧ all_chars (union lower upper) tld = true.
Proof.
  unfold emailRegex. split.
  - intros H.
    apply matches_cat_inv in H as (loc & s1 & -> & Hloc & H).
    apply matches_cat_inv in H as (at_ & s2 & -> & Hat & H).
    apply matches_cat_inv in H as (dom & s3 & -> & Hdom & H).
    apply matches_cat_inv in H as (dot & tld & -> & Hdot & Htld).
    apply matches_plus_class in Hloc as [Hloc1 Hloc2].
    apply matches_plus_class in Hdom as [Hdom1 Hdom2].
    apply matches_two_or_more_class in Htld as [Htld1 Htld2].
    apply matches_class_inv in Hat as (a & -> & Ha).
    apply matches_class_inv in Hdot as (d & -> & Hd).
    assert (a = "@"%char) as ->.
    { simpl in Ha. rewrite orb_false_r in Ha. by apply Ascii.eqb_eq in Ha. }
    assert (d = "."%char) as ->.
    { simpl in Hd. rewrite orb_false_r in Hd. by apply Ascii.eqb_eq in Hd. }
    exists loc, dom, tld. auto 10.
  - intros (loc & dom & tld & -> & Hloc1 & Hloc2 & Hdom1 & Hdom2 & Htld1 & Htld2).
    apply matches_cat; [by apply matches_plus_class|].
    apply (matches_cat _ _ "@"); [by constructor|].
    apply matches_cat; [by apply matches_plus_class|].
    apply (matches_cat _ _ "."); [by constructor|].
    by apply matches_two_or_more_class.
Qed.

(** X3. The format check of an email field accepts exactly the values
    of the shape local@domain.tld: a non-empty local part of letters,
    digits and [._%+-], a non-empty domain of letters, digits and
    [.-], and a final label of at least two letters. *)
Theorem email_format_shape (s : string) :
  test_anchored emailRegex s = true ↔
  ∃ loc dom tld,
    s = loc ++ "@" ++ dom ++ "." ++ tld
    ∧ loc ≠ "" ∧ all_chars (union alnum (one_of "._%+-")) loc = true
    ∧ dom ≠ "" ∧ all_chars (union alnum (one_of ".-")) dom = true
    ∧ 2 <= String.length tld ∧ all_chars (union lower upper) tld = true.
Proof.
  rewrite test_anchored_matches. apply emailRegex_shape.
Qed.

Lemma email_classes_without_at (c : ascii) :
  union alnum (one_of "._%+-") c = true -> one_of "@" c = false.
Proof. destruct c as [[] [] [] [] [] [] [] []]; vm_compute; congruence. Qed.

Lemma email_domain_in_local (c : ascii) :
  union alnum (one_of ".-") c = true -> union alnum (one_of "._%+-") c = true.
Proof. destruct c as [[] [] [] [] [] [] [] []]; vm_compute; congruence. Qed.

Lemma email_letters_in_local (c : ascii) :
  union lower upper c = true -> union alnum (one_of "._%+-") c = true.
Proof. destruct c as [[] [] [] [] [] [] [] []]; vm_compute; congruence. Qed.

Lemma email_forbidden_is_percent (c : ascii) :
  union (union alnum (one_of "._%+-")) (one_of "@") c = true ->
  complement (union alnum (one_of "@._-+")) c = one_of "%" c.
Proof. destruct c as [[] [] [] [] [] [] [] []]; vm_compute; congruence. Qed.

Lemma email_format_alphabet (s : string) :
  test_anchored emailRegex s = true ->
  all_chars (union (union alnum (one_of "._%+-")) (one_of "@")) s = true.
Proof.
  intros H. apply test_anchored_matches, emailRegex_shape in H
    as (loc & dom & tld & -> & _ & Hloc & _ & Hdom & _ & Htld).
  assert (Hin : ∀ c, union alnum (one_of "._%+-") c = true ->
                     union (union alnum (one_of "._%+-")) (one_of "@") c = true).
  { intros c Hc. unfold union at 1. by rewrite Hc. }
  rewrite !all_chars_app.
  rewrite (all_chars_weaken _ _ loc Hin Hloc).
  rewrite (all_chars_weaken _ _ dom (fun c Hc => Hin c (email_domain_in_local c Hc)) Hdom).
  rewrite (all_chars_weaken _ _ tld (fun c Hc => Hin c (email_letters_in_local c Hc)) Htld).
  reflexivity.
Qed.

Lemma email_format_one_at (s : string) :
  test_anchored emailRegex s = true -> count_class (one_of "@") s = 1.
Proof.
  intros H. apply test_anchored_matches, emailRegex_shape in H
    as (loc & dom & tld & -> & _ & Hloc & _ & Hdom & _ & Htld).
  rewrite !count_class_app.
  rewrite (count_class_none _ _ loc email_classes_without_at Hloc).
  rewrite (count_class_none _ _ dom
             (fun c Hc => email_classes_without_at c (email_domain_in_local c Hc)) Hdom).
  rewrite (count_class_none _ _ tld
             (fun c Hc => email_classes_without_at c (email_letters_in_local c Hc)) Htld).
  reflexivity.
Qed.

(** X4. An email field returns "Invalid email format." for every
    non-empty value that does not contain exactly one '@'. *)
Theorem email_needs_exactly_one_at (config : gmap string FieldConfig)
    (vals : gmap string string) name field s :
  config !! name = Some field -> type field = email -> s ≠ "" ->
  count_class (one_of "@") s ≠ 1 ->
  validateField config vals name (Some s) = Normal (Some "Invalid email format.").
Proof.
  intros Hf Ht Hs Hat.
  rewrite (nonempty_dispatch config vals name field s Hf Hs), Ht,
    (emailRules_order field s Ht Hs).
  destruct (test_anchored emailRegex s) eqn:Hfmt; [|reflexivity].
  destruct (Hat (email_format_one_at s Hfmt)).
Qed.

Lemma email_needs_exactly_one_at_witness :
  validateField {[ "mail" := plain email ]} ∅ "mail" (Some "a@b@c.com")
    = Normal (Some "Invalid email format.").
Proof.
  apply (email_needs_exactly_one_at {[ "mail" := plain email ]} ∅ "mail" (plain email));
    (reflexivity || discriminate).
Defined.

(** X5. For an email field and a non-empty value, the character-set
    error is returned exactly when the value passes the format check
    and contains a '%'; the value is accepted exactly when it passes
    the format check and contains no '%'. *)
Theorem email_charset_error_iff_percent (config : gmap string FieldConfig)
    (vals : gmap string string) name field s :
  config !! name = Some field -> type field = email -> s ≠ "" ->
  (validateField config vals name (Some s)
     = Normal (Some "Email contains invalid characters.")
   ↔ test_anchored emailRegex s = true ∧ has_char (one_of "%") s = true)
  ∧ (validateField config vals name (Some s) = Normal None
     ↔ test_anchored emailRegex s = true ∧ has_char (one_of "%") s = false).
Proof.
  intros Hf Ht Hs.
  rewrite (nonempty_dispatch config vals name field s Hf Hs), Ht,
    (emailRules_order field s Ht Hs).
  unfold emailForbidden. rewrite test_class.
  destruct (test_anchored emailRegex s) eqn:Hfmt.
  - rewrite (has_char_agree _ _ _ s email_forbidden_is_percent (email_format_alphabet s Hfmt)).
    destruct (has_char (one_of "%") s); simpl; split; split;
      try discriminate; try (intros [_ ?]; discriminate); auto.
  - simpl. split; split; try discriminate; intros [? _]; discriminate.
Qed.

Lemma email_charset_error_iff_percent_witness :
  (validateField {[ "mail" := plain email ]} ∅ "mail" (Some "50%off@shop.io")
     = Normal (Some "Email contains invalid characters.")
   ↔ test_anchored emailRegex "50%off@shop.io" = true
     ∧ has_char (one_of "%") "50%off@shop.io" = true)
  ∧ (validateField {[ "mail" := plain email ]} ∅ "mail" (Some "50%off@shop.io")
       = Normal None
     ↔ test_anchored emailRegex "50%off@shop.io" = true
       ∧ has_char (one_of "%") "50%off@shop.io" = false).
Proof.
  apply (email_charset_error_iff_percent {[ "mail" := plain email ]} ∅ "mail"
           (plain email)); (reflexivity || discriminate).
Defined.

(** ** Messages are never empty *)

Lemma append_nonempty_l (s1 s2 : string) : s1 ≠ "" -> s1 ++ s2 ≠ "".
Proof. destruct s1; [congruence | discriminate]. Qed.

Lemma append_nonempty_r (s1 s2 : string) : s2 ≠ "" -> s1 ++ s2 ≠ "".
Proof. intros H Heq. apply append_eq_nil in Heq as [_ ?]. contradiction. Qed.

Lemma repeatPasswordRules_eval vals field s :
  type field = repeatPassword -> s ≠ "" ->
  repeatPasswordRules vals field (Some s)
    = Normal (if bool_decide (vals !! or_string (matchField field) "password" = Some s)
              then None else Some "Passwords do not match.").
Proof.
  intros Ht Hs. unfold repeatPasswordRules.
  rewrite Ht, (truthy_nonempty s Hs). simpl bool_decide at 1. simpl andb. cbv iota zeta.
  rewrite return_if_Normal.
  rewrite (bool_decide_ext (Some s = vals !! or_string (matchField field) "password")
             (vals !! or_string (matchField field) "password" = Some s))
    by (split; intros H; symmetry; exact H).
  destruct (bool_decide _); reflexivity.
Qed.

Lemma message_nonempty (config : gmap string FieldConfig)
    (vals : gmap string string) name (value : jsvalue) msg :
  validateField config vals name value = Normal (Some msg) -> msg ≠ "".
Proof.
  intros H. destruct (config !! name) as [field|] eqn:Hf;
    [|unfold validateField in H; rewrite Hf in H; discriminate H].
  destruct (truthy value) eqn:Hv.
  - destruct (truthy_Some value Hv) as (s & -> & Hs).
    rewrite (nonempty_dispatch config vals name field s Hf Hs) in H.
    destruct (type field) eqn:Ht.
    + rewrite (emailRules_order field s Ht Hs) in H.
      destruct (negb (test_anchored emailRegex s)), (test emailForbidden s);
        try discriminate H; injection H as <-; discriminate.
    + rewrite (passwordRules_first_failure field s Ht Hs) in H.
      unfold password_checks, first_failure in H.
      repeat match type of H with
             | context [failing_min ?m ?b] => destruct (failing_min m b)
             end;
        try discriminate H; injection H as <-; try discriminate; by apply append_nonempty_l.
    + rewrite (repeatPasswordRules_eval vals field s Ht Hs) in H.
      destruct (bool_decide _); try discriminate H; injection H as <-; discriminate.
    + rewrite (textRules_eval field s Ht Hs) in H.
      destruct (all_chars digit s), (failing_min (String.length s) (minLength field)),
        (failing_max (String.length s) (maxLength field));
        try discriminate H; injection H as <-; try discriminate; by apply append_nonempty_l.
    + rewrite (numberRules_eval field s Ht Hs) in H.
      destruct (negb (all_chars digit s)),
        (failing_min (String.length s) (minLength field)),
        (failing_max (String.length s) (maxLength field));
        try discriminate H; injection H as <-; try discriminate; by apply append_nonempty_l.
    + rewrite (textareaRules_eval field s Ht Hs) in H.
      destruct (failing_min (String.length s) (minLength field)),
        (failing_max (String.length s) (maxLength field));
        try discriminate H; injection H as <-; try discriminate; by apply append_nonempty_l.
  - rewrite (falsy_skips_type_rules config vals name field value Hf Hv) in H.
    unfold requiredRule in H. rewrite return_if_Normal in H.
    destruct (truthy_bool (required field) && negb (truthy value)); [|discriminate H].
    injection H as <-. by apply append_nonempty_r.
Qed.

(** X6. Whatever the config, the value store, the field and the
    value, the message returned by [validateField] is never the empty
    string: a stored message is always truthy. *)
Theorem validateField_message_nonempty (config : gmap string FieldConfig)
    (vals : gmap string string) name (value : jsvalue) msg :
  validateField config vals name value = Normal (Some msg) -> msg ≠ "".
Proof.
  intros Hres Hempty. subst msg.
  exact (message_nonempty config vals name value "" Hres eq_refl).
Qed.

Lemma validateField_message_nonempty_witness :
  validateField danglingConfig (initialValues danglingConfig) "confirm" (Some "X1")
    = Normal (Some "Passwords do not match.")
  ∧ "Passwords do not match." ≠ "".
Proof.
  split; [reflexivity|].
  apply (validateField_message_nonempty danglingConfig (initialValues danglingConfig)
           "confirm" (Some "X1")).
  reflexivity.
Defined.

(** ** validateAll *)

Lemma verdict_falsy_iff_null config vals k :
  truthy (verdict config vals k) = false ↔ verdict config vals k = None.
Proof.
  split; [|intros ->; reflexivity].
  destruct (verdict config vals k) as [msg|] eqn:Hv; [|reflexivity].
  intros Ht. exfalso.
  assert (Hne : msg ≠ "").
  { apply (message_nonempty config vals k (vals !! k)).
    rewrite validateField_verdict, Hv. reflexivity. }
  rewrite (truthy_nonempty msg Hne) in Ht. discriminate Ht.
Qed.

Lemma covered_well_keyed (config : gmap string FieldConfig)
    (vals : gmap string string) :
  config !! "__proto__" = None -> dom config ⊆ dom vals -> well_keyed config vals.
Proof.
  intros Hp Hdom k [f Hk]. split; [intros ->; congruence|].
  left. apply elem_of_dom, Hdom, elem_of_dom. eauto.
Qed.

Lemma insert_keeps_cover (config : gmap string FieldConfig)
    (vals : gmap string string) k v :
  dom config ⊆ dom vals -> dom config ⊆ dom (<[k := v]> vals).
Proof. intros H. rewrite dom_insert_L. by apply union_subseteq_r'. Qed.

(** X7. In a state that holds a value for every field of a config
    without a field named [__proto__], [validateAll] leaves the values
    alone and rebuilds the error store from scratch: afterwards the
    error store has exactly the config keys, every entry is the
    result of [validateField] on the stored value of its field, and
    entries left behind under other keys are gone. *)
Theorem validateAll_rebuilds_errors (config : gmap string FieldConfig)
    (st st' : FormState) (valid : bool) :
  config !! "__proto__" = None ->
  dom config ⊆ dom (values st) ->
  validateAll config st = Normal (st', valid) ->
  values st' = values st
  ∧ dom (errors st') = dom config
  ∧ (∀ k, is_Some (config !! k) ->
       ∃ e, errors st' !! k = Some e
            ∧ validateField config (values st') k (values st' !! k) = Normal e)
  ∧ (∀ k, config !! k = None -> errors st' !! k = None).
Proof.
  intros Hproto Hdom Hrun.
  destruct (validateAll_spec config st (covered_well_keyed config _ Hproto Hdom))
    as (errs & valid' & Heq & Herrs & _).
  rewrite Heq in Hrun. injection Hrun as <- _. simpl.
  split; [reflexivity|]. split; [|split].
  - apply set_eq. intros k. rewrite !elem_of_dom, Herrs.
    destruct (config !! k); simpl; split; intros [? ?]; eauto; discriminate.
  - intros k [f Hk]. exists (verdict config (values st) k).
    rewrite Herrs, Hk. split; [reflexivity | apply validateField_verdict].
  - intros k Hk. rewrite Herrs, Hk. reflexivity.
Qed.

Lemma validateAll_rebuilds_errors_witness :
  values ghostValidated
    = values ghostTyped
  ∧ dom (errors ghostValidated)
      = dom passwordPair
  ∧ (∀ k, is_Some (passwordPair !! k) ->
       ∃ e, errors ghostValidated !! k = Some e
            ∧ validateField passwordPair
                (values ghostValidated) k
                (values ghostValidated !! k)
              = Normal e)
  ∧ (∀ k, passwordPair !! k = None ->
       errors ghostValidated !! k = None).
Proof.
  apply (validateAll_rebuilds_errors passwordPair ghostTyped _ true).
  - reflexivity.
  - refine (bool_decide_unpack _ _). vm_compute. exact I.
  - vm_compute. reflexivity.
Defined.

(** X8. In a state that holds a value for every field of a config
    without a field named [__proto__], [validateAll] returns [true]
    exactly when the error store it builds holds [null] under every
    config key. *)
Theorem validateAll_true_iff_no_error (config : gmap string FieldConfig)
    (st st' : FormState) (valid : bool) :
  config !! "__proto__" = None ->
  dom config ⊆ dom (values st) ->
  validateAll config st = Normal (st', valid) ->
  valid = true ↔ ∀ k, is_Some (config !! k) -> errors st' !! k = Some None.
Proof.
  intros Hproto Hdom Hrun.
  destruct (validateAll_spec config st (covered_well_keyed config _ Hproto Hdom))
    as (errs & valid' & Heq & Herrs & Hvalid).
  rewrite Heq in Hrun. injection Hrun as <- <-. simpl.
  rewrite Hvalid. split; intros H k Hk.
  - destruct Hk as [f Hf]. rewrite Herrs, Hf. simpl. f_equal.
    apply verdict_falsy_iff_null, H. eauto.
  - apply verdict_falsy_iff_null. specialize (H k Hk).
    destruct Hk as [f Hf]. rewrite Herrs, Hf in H. simpl in H. by injection H.
Qed.

Lemma validateAll_true_iff_no_error_witness :
  true = true ↔
  ∀ k, is_Some (passwordPair !! k) ->
       errors ghostValidated !! k = Some None.
Proof.
  apply (validateAll_true_iff_no_error passwordPair ghostTyped).
  - reflexivity.
  - refine (bool_decide_unpack _ _). vm_compute. exact I.
  - vm_compute. reflexivity.
Defined.

(** X9. [validateAll] is idempotent: run again on the state it
    produced, it returns the same flag and the same state. *)
Theorem validateAll_idempotent (config : gmap string FieldConfig)
    (st st' : FormState) (valid : bool) :
  validateAll config st = Normal (st', valid) ->
  validateAll config st' = Normal (st', valid).
Proof.
  intros Hrun.
  destruct (validateAll_inv config st st' valid Hrun) as [Hvals Hfold].
  destruct st' as [vals' errs']. simpl in Hvals, Hfold. subst vals'.
  unfold validateAll. simpl. rewrite Hfold. reflexivity.
Qed.

Lemma validateAll_idempotent_witness :
  validateAll passwordPair
    ghostValidated
  = Normal (ghostValidated, true).
Proof.
  apply (validateAll_idempotent passwordPair ghostTyped).
  vm_compute. reflexivity.
Defined.

(** ** Invariants of the error store *)

Lemma speaks_none : speaks (Normal None).
Proof. intros msg H. discriminate H. Qed.

Lemma speaks_return_if c msg k : msg ≠ "" -> speaks k -> speaks (return_if c msg k).
Proof.
  intros Hmsg Hk m. destruct c as [[|]|]; simpl.
  - intros [= <-]. exact Hmsg.
  - apply Hk.
  - discriminate.
Qed.

Lemma speaks_then_block b k : speaks b -> speaks k -> speaks (b ;;; k).
Proof.
  intros Hb Hk m. destruct b as [[msg|]|]; simpl.
  - apply Hb.
  - apply Hk.
  - discriminate.
Qed.

Lemma speaks_guarded (c : bool) b : speaks b -> speaks (if c then b else Normal None).
Proof. destruct c; [auto | intros _; apply speaks_none]. Qed.

Lemma validateFieldObject_speaks config vals name o :
  speaks (validateFieldObject config vals name o).
Proof.
  unfold validateFieldObject. destruct (config !! name) as [field|]; [|apply speaks_none].
  unfold emailRulesObject, passwordRulesObject, repeatPasswordRulesObject,
    textRulesObject, textareaRulesObject, numberRulesObject.
  repeat (apply speaks_then_block); try apply speaks_none; apply speaks_guarded;
    repeat (apply speaks_return_if;
            [first [discriminate | apply append_nonempty_l; discriminate]|]);
    apply speaks_none.
Qed.

Lemma message_nonempty_on config vals name (v : property) msg :
  validateFieldOn config vals name v = Normal (Some msg) -> msg ≠ "".
Proof.
  destruct v as [s|o|]; simpl.
  - apply message_nonempty.
  - apply validateFieldObject_speaks.
  - apply message_nonempty.
Qed.

Lemma run_errors config st op st' :
  run config st op = Normal st' ->
  match op with
  | Update n v =>
      ∃ e, validateField config (values st) n (Some v) = Normal e
           ∧ errors st' = <[n := e]> (errors st)
  | ValidateAll =>
      ∀ k e, errors st' !! k = Some e ->
        is_Some (config !! k) ∧ k ≠ "__proto__"
        ∧ validateFieldOn config (values st) k (get (values st) k) = Normal e
  | Reset => errors st' = ∅
  end.
Proof.
  destruct op as [n v| |]; simpl; intros Hrun.
  - destruct (handleChange_eq config st n v) as (e & He & Heq).
    rewrite Heq in Hrun. injection Hrun as <-. exists e. split; [exact He | reflexivity].
  - destruct (validateAll config st) as [[st1 valid]|] eqn:Hall; [|discriminate Hrun].
    simpl in Hrun. injection Hrun as <-.
    destruct (validateAll_inv config st st1 valid Hall) as [_ Hfold].
    intros k e Hk.
    destruct (validateAll_fold_entries config (values st) _ _ _ _ _ Hfold k e Hk)
      as [Hempty|(Hin & Hne & Hres)].
    + rewrite lookup_empty in Hempty. discriminate Hempty.
    + split; [by apply elem_of_ObjectKeys | by split].
  - injection Hrun as <-. reflexivity.
Qed.

(** X10. In every state reachable from the initial one, each key of
    the error store is also a key of the value store, and each stored
    message is non-empty and sits under a configured field: an
    unconfigured key never carries an error message. *)
Theorem reachable_error_store_invariant (config : gmap string FieldConfig)
    (st : FormState) :
  reachable config st ->
  dom (errors st) ⊆ dom (values st)
  ∧ ∀ k msg, errors st !! k = Some (Some msg) -> is_Some (config !! k) ∧ msg ≠ "".
Proof.
  intros Hreach. induction Hreach as [|st op st' Hreach [IHdom IHmsg] Hrun].
  - simpl. split; [rewrite dom_empty_L; apply empty_subseteq|].
    intros k msg H. rewrite lookup_empty in H. discriminate H.
  - pose proof (run_values_dom config st op st' Hrun) as Hvals.
    pose proof (run_errors config st op st' Hrun) as Herrs.
    destruct op as [n v| |].
    + destruct Herrs as (e & He & ->). rewrite Hvals, dom_insert_L. split.
      * apply union_mono_l, IHdom.
      * intros k msg Hk. destruct (decide (n = k)) as [->|Hne].
        -- rewrite lookup_insert_eq in Hk. injection Hk as ->. split.
           ++ destruct (config !! k) eqn:Hc; [eauto|].
              unfold validateField in He. rewrite Hc in He. discriminate He.
           ++ exact (message_nonempty _ _ _ _ _ He).
        -- rewrite lookup_insert_ne in Hk by exact Hne. exact (IHmsg k msg Hk).
    + split.
      * intros k Hk. apply elem_of_dom in Hk as [e Hk].
        destruct (Herrs k e Hk) as (Hc & Hne & _).
        rewrite Hvals. apply (reachable_values_cover config st Hreach).
        apply elem_of_difference. split; [by apply elem_of_dom|].
        by rewrite elem_of_singleton.
      * intros k msg Hk. destruct (Herrs k (Some msg) Hk) as (Hc & _ & Hres).
        split; [exact Hc|]. exact (message_nonempty_on _ _ _ _ _ Hres).
    + rewrite Herrs. split; [rewrite dom_empty_L; apply empty_subseteq|].
      intros k msg H. rewrite lookup_empty in H. discriminate H.
Qed.

Lemma reachable_error_store_invariant_witness :
  dom (errors ghostTyped) ⊆ dom (values ghostTyped)
  ∧ ∀ k msg, errors ghostTyped !! k = Some (Some msg) ->
             is_Some (passwordPair !! k) ∧ msg ≠ "".
Proof.
  apply (reachable_error_store_invariant passwordPair ghostTyped).
  apply (reachable_step _ (init passwordPair) (Update "ghost" "X1")).
  - apply reachable_init.
  - vm_compute. reflexivity.
Defined.

(** ** What validateField reads *)

Lemma validateField_store_irrelevant config vals vals' name (value : jsvalue) :
  not_repeat config name ->
  validateField config vals name value = validateField config vals' name value.
Proof.
  intros Hnr. unfold validateField. destruct (config !! name) as [f|] eqn:Hf; [|reflexivity].
  unfold repeatPasswordRules.
  rewrite (bool_decide_eq_false_2 _ (Hnr f Hf)). reflexivity.
Qed.

Lemma validateField_agree_on_target config vals vals' name (value : jsvalue) :
  (∀ f, config !! name = Some f -> type f = repeatPassword ->
        vals !! or_string (matchField f) "password"
          = vals' !! or_string (matchField f) "password") ->
  validateField config vals name value = validateField config vals' name value.
Proof.
  intros Hagree.
  destruct (config !! name) as [f|] eqn:Hf.
  - destruct (decide (type f = repeatPassword)) as [Ht|Ht].
    + unfold validateField. rewrite Hf. unfold repeatPasswordRules.
      rewrite (Hagree f eq_refl Ht). reflexivity.
    + apply validateField_store_irrelevant. intros g Hg. congruence.
  - apply validateField_store_irrelevant. intros g Hg. congruence.
Qed.

(** X11. The value store influences [validateField] only through the
    entry a repeatPassword field is compared with: two stores that
    agree on that entry give the same result, and for a field of any
    other type (or an unconfigured name) the store is not read at
    all. *)
Theorem validateField_reads_only_match_target (config : gmap string FieldConfig)
    (vals vals' : gmap string string) name (value : jsvalue) :
  (∀ f, config !! name = Some f -> type f = repeatPassword ->
        vals !! or_string (matchField f) "password"
          = vals' !! or_string (matchField f) "password") ->
  validateField config vals name value = validateField config vals' name value.
Proof.
  intros Hagree. destruct (config !! name) as [f|] eqn:Hf.
  - apply validateField_agree_on_target. intros g Hg Ht. apply Hagree; congruence.
  - apply validateField_store_irrelevant. intros g Hg. congruence.
Qed.

Lemma validateField_reads_only_match_target_witness :
  validateField passwordPair (values bothTyped) "password" (Some "X2")
    = validateField passwordPair ∅ "password" (Some "X2").
Proof.
  apply (validateField_reads_only_match_target passwordPair (values bothTyped) ∅
           "password" (Some "X2")).
  intros f Hf Ht. vm_compute in Hf. injection Hf as <-. discriminate Ht.
Defined.

(** X12. Updates of two different fields commute when neither is a
    repeatPassword field: both orders complete and give the same value
    store and the same error store. *)
Theorem updates_of_distinct_fields_commute (config : gmap string FieldConfig)
    (st : FormState) (n1 v1 n2 v2 : string) :
  n1 ≠ n2 -> not_repeat config n1 -> not_repeat config n2 ->
  ∃ st',
    (handleChange config st n1 v1 ≫= fun s => handleChange config s n2 v2) = Normal st'
    ∧ (handleChange config st n2 v2 ≫= fun s => handleChange config s n1 v1) = Normal st'.
Proof.
  intros Hne H1 H2.
  destruct (handleChange_eq config st n1 v1) as (e1 & He1 & Hrun1).
  destruct (handleChange_eq config st n2 v2) as (e2 & He2 & Hrun2).
  exists (mkState (<[n2 := v2]> (<[n1 := v1]> (values st)))
                  (<[n2 := e2]> (<[n1 := e1]> (errors st)))).
  rewrite Hrun1, Hrun2. simpl. unfold handleChange. simpl.
  rewrite (validateField_store_irrelevant config _ (values st) n2 (Some v2) H2), He2.
  rewrite (validateField_store_irrelevant config _ (values st) n1 (Some v1) H1), He1.
  simpl. split; [reflexivity|].
  rewrite (insert_insert_ne (values st) n1 n2) by exact Hne.
  rewrite (insert_insert_ne (errors st) n1 n2) by exact Hne.
  reflexivity.
Qed.

Lemma updates_of_distinct_fields_commute_witness :
  ∃ st',
    (handleChange pinForm (init pinForm) "nick" "bob"
       ≫= fun s => handleChange pinForm s "pin" "12") = Normal st'
    ∧ (handleChange pinForm (init pinForm) "pin" "12"
         ≫= fun s => handleChange pinForm s "nick" "bob") = Normal st'.
Proof.
  apply (updates_of_distinct_fields_commute pinForm (init pinForm) "nick" "bob" "pin" "12").
  - discriminate.
  - intros f Hf. vm_compute in Hf. injection Hf as <-. discriminate.
  - intros f Hf. vm_compute in Hf. injection Hf as <-. discriminate.
Defined.

(** X13. Updating the same field twice leaves the state of a single
    update with the last value, when the field is not a repeatPassword
    field. *)
Theorem update_last_write_wins (config : gmap string FieldConfig)
    (st : FormState) (n v1 v2 : string) :
  not_repeat config n ->
  (handleChange config st n v1 ≫= fun s => handleChange config s n v2)
    = handleChange config st n v2.
Proof.
  intros Hnr.
  destruct (handleChange_eq config st n v1) as (e1 & He1 & Hrun1).
  destruct (handleChange_eq config st n v2) as (e2 & He2 & Hrun2).
  rewrite Hrun1, Hrun2. simpl. unfold handleChange. simpl.
  rewrite (validateField_store_irrelevant config _ (values st) n (Some v2) Hnr), He2.
  simpl. by rewrite !insert_insert_eq.
Qed.

Lemma update_last_write_wins_witness :
  (handleChange pinForm (init pinForm) "pin" "12"
     ≫= fun s => handleChange pinForm s "pin" "1234")
    = handleChange pinForm (init pinForm) "pin" "1234".
Proof.
  apply (update_last_write_wins pinForm (init pinForm) "pin" "12" "1234").
  intros f Hf. vm_compute in Hf. injection Hf as <-. discriminate.
Defined.

(** ** Repeat password *)

Lemma repeatPassword_result config vals name field s :
  config !! name = Some field -> type field = repeatPassword -> s ≠ "" ->
  validateField config vals name (Some s)
    = Normal (if bool_decide (vals !! or_string (matchField field) "password" = Some s)
              then None else Some "Passwords do not match.").
Proof.
  intros Hf Ht Hs.
  rewrite (nonempty_dispatch config vals name field s Hf Hs), Ht.
  apply repeatPasswordRules_eval; assumption.
Qed.

(** X14. A repeatPassword field accepts a non-empty value exactly when
    the store holds that same value under the key it is matched with:
    [matchField] when that is a non-empty string, "password"
    otherwise.  In every other case it returns "Passwords do not
    match.". *)
Theorem repeatPassword_accepts_iff_equal (config : gmap string FieldConfig)
    (vals : gmap string string) name field s :
  config !! name = Some field -> type field = repeatPassword -> s ≠ "" ->
  (validateField config vals name (Some s) = Normal None
   ↔ vals !! match matchField field with
             | Some (String c m) => String c m
             | _ => "password"
             end = Some s)
  ∧ (validateField config vals name (Some s) ≠ Normal None ->
     validateField config vals name (Some s) = Normal (Some "Passwords do not match.")).
Proof.
  intros Hf Ht Hs. rewrite (repeatPassword_result config vals name field s Hf Ht Hs).
  assert (Htarget : or_string (matchField field) "password"
                    = match matchField field with
                      | Some (String c m) => String c m
                      | _ => "password"
                      end).
  { unfold or_string. destruct (matchField field) as [[|c m]|]; reflexivity. }
  rewrite <- Htarget. case_bool_decide as Heq.
  - split; [split; [intros _; exact Heq | reflexivity] | intros H; by destruct H].
  - split; [split; [discriminate | intros H; contradiction] | reflexivity].
Qed.

Lemma repeatPassword_accepts_iff_equal_witness :
  (validateField passwordPair (values bothTyped) "confirm" (Some "X1") = Normal None
   ↔ values bothTyped !! "password" = Some "X1")
  ∧ (validateField passwordPair (values bothTyped) "confirm" (Some "X1") ≠ Normal None ->
     validateField passwordPair (values bothTyped) "confirm" (Some "X1")
       = Normal (Some "Passwords do not match.")).
Proof.
  apply (repeatPassword_accepts_iff_equal passwordPair (values bothTyped) "confirm"
           (mkField repeatPassword None None None None None None None (Some "password"))
           "X1"); (reflexivity || discriminate).
Defined.

(** X15. Typing a non-empty value into the matched field and then the
    same value into the repeatPassword field leaves [null] as the
    error of the repeatPassword field. *)
Theorem password_then_repeat_matches (config : gmap string FieldConfig)
    (st st1 st2 : FormState) name field (s : string) :
  config !! name = Some field -> type field = repeatPassword -> s ≠ "" ->
  handleChange config st (or_string (matchField field) "password") s = Normal st1 ->
  handleChange config st1 name s = Normal st2 ->
  errors st2 !! name = Some None
  ∧ values st2 !! name = Some s
  ∧ values st2 !! or_string (matchField field) "password" = Some s.
Proof.
  intros Hf Ht Hs Hrun1 Hrun2.
  destruct (handleChange_eq config st (or_string (matchField field) "password") s)
    as (e1 & _ & Heq1).
  rewrite Heq1 in Hrun1. injection Hrun1 as <-.
  destruct (handleChange_eq config
              (mkState (<[or_string (matchField field) "password" := s]> (values st))
                       (<[or_string (matchField field) "password" := e1]> (errors st)))
              name s) as (e2 & He2 & Heq2).
  rewrite Heq2 in Hrun2. injection Hrun2 as <-. simpl in *.
  rewrite (repeatPassword_result config _ name field s Hf Ht Hs) in He2.
  rewrite lookup_insert_eq in He2.
  rewrite bool_decide_eq_true_2 in He2 by reflexivity.
  injection He2 as <-. rewrite !lookup_insert_eq. split; [reflexivity|].
  split; [reflexivity|].
  destruct (decide (name = or_string (matchField field) "password")) as [<-|Hne].
  - apply lookup_insert_eq.
  - rewrite lookup_insert_ne by exact Hne. apply lookup_insert_eq.
Qed.

Lemma password_then_repeat_matches_witness :
  errors bothTyped !! "confirm" = Some None
  ∧ values bothTyped !! "confirm" = Some "X1"
  ∧ values bothTyped !! or_string (Some "password") "password" = Some "X1".
Proof.
  apply (password_then_repeat_matches passwordPair (init passwordPair)
           (mkState (<["password" := "X1"]> (initialValues passwordPair))
                    (<["password" := None]> ∅))
           bothTyped "confirm"
           (mkField repeatPassword None None None None None None None (Some "password"))
           "X1"); try (reflexivity || discriminate); vm_compute; reflexivity.
Defined.

(** X16. In the opposite order the error goes stale: when the
    repeatPassword field is typed first, against a different stored
    value, and the matched field receives the same value afterwards,
    the two values agree but the stored error is still "Passwords do
    not match."; the next [validateAll] replaces it by [null].  The
    config has no field named [__proto__] and the state holds a value
    for every field. *)
Theorem repeat_then_password_is_stale (config : gmap string FieldConfig)
    (st st1 st2 : FormState) name field (s : string) :
  config !! "__proto__" = None -> dom config ⊆ dom (values st) ->
  config !! name = Some field -> type field = repeatPassword -> s ≠ "" ->
  or_string (matchField field) "password" ≠ name ->
  values st !! or_string (matchField field) "password" ≠ Some s ->
  handleChange config st name s = Normal st1 ->
  handleChange config st1 (or_string (matchField field) "password") s = Normal st2 ->
  values st2 !! name = values st2 !! or_string (matchField field) "password"
  ∧ errors st2 !! name = Some (Some "Passwords do not match.")
  ∧ ∃ st3 valid, validateAll config st2 = Normal (st3, valid)
                 ∧ errors st3 !! name = Some None.
Proof.
  intros Hproto Hdom Hf Ht Hs Hne Hold Hrun1 Hrun2.
  destruct (handleChange_eq config st name s) as (e1 & He1 & Heq1).
  rewrite Heq1 in Hrun1. injection Hrun1 as <-.
  rewrite (repeatPassword_result config _ name field s Hf Ht Hs) in He1.
  rewrite bool_decide_eq_false_2 in He1 by exact Hold. injection He1 as <-.
  destruct (handleChange_eq config
              (mkState (<[name := s]> (values st))
                       (<[name := Some "Passwords do not match."]> (errors st)))
              (or_string (matchField field) "password") s) as (e2 & _ & Heq2).
  rewrite Heq2 in Hrun2. injection Hrun2 as <-. simpl.
  split; [rewrite lookup_insert_ne by exact Hne; by rewrite !lookup_insert_eq|].
  split; [rewrite lookup_insert_ne by exact Hne; apply lookup_insert_eq|].
  destruct (validateAll_spec config
              (mkState (<[or_string (matchField field) "password" := s]>
                          (<[name := s]> (values st)))
                       (<[or_string (matchField field) "password" := e2]>
                          (<[name := Some "Passwords do not match."]> (errors st))))
              (covered_well_keyed config _ Hproto
                 (insert_keeps_cover config _ _ _
                    (insert_keeps_cover config _ _ _ Hdom))))
    as (errs & valid & Heq & Herrs & _).
  exists (mkState (<[or_string (matchField field) "password" := s]>
                     (<[name := s]> (values st))) errs), valid.
  split; [exact Heq|]. simpl in *. rewrite Herrs, Hf. simpl. f_equal.
  unfold verdict. rewrite lookup_insert_ne, lookup_insert_eq by exact Hne.
  rewrite (repeatPassword_result config _ name field s Hf Ht Hs).
  rewrite lookup_insert_eq. rewrite bool_decide_eq_true_2 by reflexivity. reflexivity.
Qed.

Lemma repeat_then_password_is_stale_witness :
  values confirmThenPassword !! "confirm"
    = values confirmThenPassword !! or_string (Some "password") "password"
  ∧ errors confirmThenPassword !! "confirm" = Some (Some "Passwords do not match.")
  ∧ ∃ st3 valid, validateAll passwordPair confirmThenPassword = Normal (st3, valid)
                 ∧ errors st3 !! "confirm" = Some None.
Proof.
  apply (repeat_then_password_is_stale passwordPair (init passwordPair)
           confirmFirst confirmThenPassword "confirm"
           (mkField repeatPassword None None None None None None None (Some "password"))
           "X1").
  - reflexivity.
  - simpl. rewrite initialValues_dom_plain by reflexivity. reflexivity.
  - reflexivity.
  - reflexivity.
  - discriminate.
  - vm_compute. discriminate.
  - vm_compute. discriminate.
  - vm_compute. reflexivity.
  - vm_compute. reflexivity.
Defined.

(** ** Bounds and the properties a type consults *)

Lemma return_if_below_drop_zero m b pre post k :
  return_if (below m b) (pre ++ show_num b ++ post) k
    = return_if (below m (drop_zero b))
        (pre ++ show_num (drop_zero b) ++ post) k.
Proof. destruct b as [[|n|n]|]; reflexivity. Qed.

Lemma return_if_above_drop_zero m b pre post k :
  return_if (above m b) (pre ++ show_num b ++ post) k
    = return_if (above m (drop_zero b))
        (pre ++ show_num (drop_zero b) ++ post) k.
Proof. destruct b as [[|n|n]|]; reflexivity. Qed.

(** X17. A numeric bound configured as [0] behaves exactly like an
    absent bound: replacing every zero bound of a field by "absent"
    changes no result of [validateField]. *)
Theorem zero_bound_is_no_bound (config config' : gmap string FieldConfig)
    (vals : gmap string string) name field (value : jsvalue) :
  config !! name = Some field ->
  config' !! name = Some (without_zero_bounds field) ->
  validateField config vals name value = validateField config' vals name value.
Proof.
  intros Hf Hf'. unfold validateField. rewrite Hf, Hf'.
  unfold requiredRule, emailRules, passwordRules, repeatPasswordRules, textRules,
    textareaRules, numberRules, without_zero_bounds. simpl.
  rewrite (return_if_below_drop_zero _ (minLength field)).
  rewrite (return_if_below_drop_zero _ (minSpecialChars field)).
  rewrite (return_if_below_drop_zero _ (minUppercase field)).
  rewrite (return_if_below_drop_zero _ (minNumbers field)).
  rewrite !(return_if_below_drop_zero _ (minLength field)).
  rewrite !(return_if_above_drop_zero _ (maxLength field)).
  reflexivity.
Qed.

Lemma zero_bound_is_no_bound_witness :
  validateField {[ "bio" := mkField textarea None None (Some 0%Z) (Some 0%Z)
                             None None None None ]} ∅ "bio" (Some "hello")
    = validateField {[ "bio" := plain textarea ]} ∅ "bio" (Some "hello").
Proof.
  apply (zero_bound_is_no_bound
           {[ "bio" := mkField textarea None None (Some 0%Z) (Some 0%Z)
                         None None None None ]}
           {[ "bio" := plain textarea ]} ∅ "bio"
           (mkField textarea None None (Some 0%Z) (Some 0%Z) None None None None)
           (Some "hello")); reflexivity.
Defined.

(** X18. The rules of a field read only the properties of its own
    type: besides [type], [label] and [required], an email field
    reads nothing, a password field its four minimums (never
    [maxLength]), a repeatPassword field its [matchField], and text,
    textarea and number fields their two length bounds.  Two
    configurations that agree on these give the same result. *)
Theorem rules_read_only_their_own_properties (config config' : gmap string FieldConfig)
    (vals : gmap string string) name f g (value : jsvalue) :
  config !! name = Some f -> config' !! name = Some g -> same_consulted f g ->
  validateField config vals name value = validateField config' vals name value.
Proof.
  intros Hf Hg (Ht & Hl & Hr & Hrest). unfold validateField. rewrite Hf, Hg.
  destruct f as [t l r a b c d e m], g as [t' l' r' a' b' c' d' e' m'].
  simpl in Ht, Hl, Hr, Hrest. subst t' l' r'.
  unfold requiredRule, emailRules, passwordRules, repeatPasswordRules, textRules,
    textareaRules, numberRules.
  destruct t; simpl in *;
    repeat match goal with H : _ ∧ _ |- _ => destruct H end; subst; reflexivity.
Qed.

Lemma rules_read_only_their_own_properties_witness :
  validateField {[ "pw" := mkField password None None (Some 8%Z) (Some 3%Z)
                            None None None None ]} ∅ "pw" (Some "longpassword")
    = validateField {[ "pw" := mkField password None None (Some 8%Z) None
                                None None None None ]} ∅ "pw" (Some "longpassword").
Proof.
  apply (rules_read_only_their_own_properties
           {[ "pw" := mkField password None None (Some 8%Z) (Some 3%Z)
                        None None None None ]}
           {[ "pw" := mkField password None None (Some 8%Z) None None None None None ]}
           ∅ "pw"
           (mkField password None None (Some 8%Z) (Some 3%Z) None None None None)
           (mkField password None None (Some 8%Z) None None None None None)
           (Some "longpassword")); [reflexivity | reflexivity |].
  repeat split.
Defined.


(** ** useToggle *)

Lemma toggle_flips (n : nat) :
  ∀ s, foldl toggle s (replicate n None) = if Nat.even n then s else negb s.
Proof.
  induction n as [|n IH]; intros s; [reflexivity|].
  change (foldl toggle (negb s) (replicate n None)
          = if Nat.even (S n) then s else negb s).
  rewrite IH, Nat.even_succ, <- Nat.negb_even.
  destruct (Nat.even n); simpl; [reflexivity | apply negb_involutive].
Qed.

(** X20. After any sequence of [toggle] calls the state is the last
    explicitly set value (the initial value when there is none),
    flipped once for every call without argument made since: it is
    that value after an even number of such calls and its negation
    after an odd number. *)
Theorem toggle_sequence (initial : bool) (calls : list (option bool)) (b : bool) (n : nat) :
  foldl toggle initial (replicate n None) = (if Nat.even n then initial else negb initial)
  ∧ foldl toggle initial (calls ++ Some b :: replicate n None)
      = (if Nat.even n then b else negb b).
Proof.
  split; [apply toggle_flips|].
  rewrite foldl_app. simpl. apply toggle_flips.
Qed.

(** ** useBreakpoint *)

(** X21. [getBreakpoint] maps a width to the breakpoint whose range
    contains it: the result is [b] exactly when the width is above the
    lower limit of [b] and at most its upper limit; the ranges tile
    the integers in the declared order. *)
Theorem getBreakpoint_ranges (width : Z) (b : Breakpoint) :
  getBreakpoint width = b ↔
  (∀ l, lower_width b = Some l -> (l < width)%Z)
  ∧ (∀ u, upper_width b = Some u -> (width <= u)%Z).
Proof.
  unfold getBreakpoint.
  repeat match goal with
         | |- context [(width <=? ?k)%Z] => destruct (Z.leb_spec width k)
         end;
    (split;
     [ intros <-; simpl; split; intros ? [= <-]; lia
     | intros [Hl Hu]; destruct b; simpl in Hl, Hu;
       try reflexivity; exfalso;
       try (specialize (Hl _ eq_refl)); try (specialize (Hu _ eq_refl)); lia ]).
Qed.

(** X22. [getBreakpoint] is monotone: a wider viewport never yields
    an earlier breakpoint of the declared order. *)
Theorem getBreakpoint_monotone (w1 w2 : Z) :
  (w1 <= w2)%Z -> rank (getBreakpoint w1) <= rank (getBreakpoint w2).
Proof.
  intros Hle. unfold getBreakpoint.
  repeat match goal with
         | |- context [(w1 <=? ?k)%Z] => destruct (Z.leb_spec w1 k)
         end;
    repeat match goal with
           | |- context [(w2 <=? ?k)%Z] => destruct (Z.leb_spec w2 k)
           end;
    simpl; lia.
Qed.

Lemma getBreakpoint_monotone_witness :
  rank (getBreakpoint 768) <= rank (getBreakpoint 769).
Proof. apply (getBreakpoint_monotone 768 769). lia. Defined.

(** ** useCheckBrowsers *)

Lemma matches_literal (w x : string) : matches (literal w) x ↔ x = w.
Proof.
  revert x. induction w as [|c w IH]; intros x; simpl.
  - split; [intros H; by inversion H | intros ->; constructor].
  - split.
    + intros H. apply matches_cat_inv in H as (s1 & s2 & -> & H1 & H2).
      apply matches_class_inv in H1 as (d & -> & Hd). apply IH in H2 as ->.
      simpl in Hd. rewrite orb_false_r in Hd. apply Ascii.eqb_eq in Hd as ->.
      reflexivity.
    + intros ->.
      apply (matches_cat (Class (one_of (String c ""))) (literal w) (String c "") w).
      * constructor. simpl. by rewrite Ascii.eqb_refl.
      * by apply IH.
Qed.

(** [/w/.test(s)] for a literal word [w]: the word occurs in [s]. *)
Lemma test_literal_contains (w s : string) : test (literal w) s = true ↔ contains w s.
Proof.
  unfold test, contains. rewrite test_anchored_matches. split.
  - intros H. apply matches_cat_inv in H as (pre & s' & -> & _ & H).
    apply matches_cat_inv in H as (x & post & -> & Hx & _).
    apply matches_literal in Hx as ->. eauto.
  - intros (pre & post & ->).
    apply matches_cat; [apply matches_star_class, all_chars_any|].
    apply matches_cat; [by apply matches_literal|].
    apply matches_star_class, all_chars_any.
Qed.

(** X23. The browser is decided by the first token found, in the
    order Edg/, OPR/ or Opera, Firefox/, Chrome/, Safari/: a user agent
    is reported as edge exactly when it contains "Edg/", as opera when
    it contains "OPR/" or "Opera" but not "Edg/", and so on down to
    safari, which requires "Safari/" and none of the other tokens. *)
Theorem detectBrowser_first_token_wins (ua : string) :
  (detectBrowser ua = edge ↔ contains "Edg/" ua)
  ∧ (detectBrowser ua = opera ↔
     ¬ contains "Edg/" ua ∧ (contains "OPR/" ua ∨ contains "Opera" ua))
  ∧ (detectBrowser ua = firefox ↔
     ¬ contains "Edg/" ua ∧ ¬ contains "OPR/" ua ∧ ¬ contains "Opera" ua
     ∧ contains "Firefox/" ua)
  ∧ (detectBrowser ua = chrome ↔
     ¬ contains "Edg/" ua ∧ ¬ contains "OPR/" ua ∧ ¬ contains "Opera" ua
     ∧ ¬ contains "Firefox/" ua ∧ contains "Chrome/" ua)
  ∧ (detectBrowser ua = safari ↔
     ¬ contains "Edg/" ua ∧ ¬ contains "OPR/" ua ∧ ¬ contains "Opera" ua
     ∧ ¬ contains "Firefox/" ua ∧ ¬ contains "Chrome/" ua ∧ contains "Safari/" ua).
Proof.
  rewrite <- !test_literal_contains. unfold detectBrowser.
  destruct (test (literal "Edg/") ua), (test (literal "OPR/") ua),
    (test (literal "Opera") ua), (test (literal "Firefox/") ua),
    (test (literal "Chrome/") ua), (test (literal "Safari/") ua);
    simpl; repeat split; intros; try discriminate; try tauto;
    repeat match goal with H : _ ∧ _ |- _ => destruct H end;
    try congruence; try tauto.
Qed.

(** ** Updates and full validation agree *)

(** X24. A full validation right after [update(n, v)] keeps the error
    entry that the update stored for [n], provided [n] is configured
    and is not a repeatPassword field matched against itself: the
    single-field result is the one [validateAll] computes.  The
    config has no field named [__proto__] and the state holds a value
    for every field. *)
Theorem validateAll_confirms_update (config : gmap string FieldConfig)
    (st st1 st2 : FormState) (valid : bool) (n v : string) field :
  config !! "__proto__" = None -> dom config ⊆ dom (values st) ->
  config !! n = Some field ->
  (type field = repeatPassword -> or_string (matchField field) "password" ≠ n) ->
  handleChange config st n v = Normal st1 ->
  validateAll config st1 = Normal (st2, valid) ->
  errors st2 !! n = errors st1 !! n.
Proof.
  intros Hproto Hdom Hf Hself Hrun1 Hrun2.
  destruct (handleChange_eq config st n v) as (e & He & Heq1).
  rewrite Heq1 in Hrun1. injection Hrun1 as <-.
  destruct (validateAll_spec config
              (mkState (<[n := v]> (values st)) (<[n := e]> (errors st)))
              (covered_well_keyed config _ Hproto (insert_keeps_cover config _ _ _ Hdom)))
    as (errs & valid' & Heq2 & Herrs & _).
  rewrite Heq2 in Hrun2. injection Hrun2 as <- _. simpl in *.
  rewrite Herrs, Hf, lookup_insert_eq. simpl. f_equal.
  unfold verdict. rewrite lookup_insert_eq.
  rewrite (validateField_agree_on_target config _ (values st) n (Some v)), He;
    [reflexivity|].
  intros g Hg Ht. assert (g = field) as -> by congruence.
  apply lookup_insert_ne. intros Heq. exact (Hself Ht (eq_sym Heq)).
Qed.

Lemma validateAll_confirms_update_witness :
  errors (mkState (values confirmFirst)
            (<["confirm" := Some "Passwords do not match."]> (<["password" := None]> ∅)))
    !! "confirm"
  = errors confirmFirst !! "confirm".
Proof.
  apply (validateAll_confirms_update passwordPair (init passwordPair) confirmFirst
           _ false "confirm" "X1"
           (mkField repeatPassword None None None None None None None (Some "password"))).
  - reflexivity.
  - simpl. rewrite initialValues_dom_plain by reflexivity. reflexivity.
  - reflexivity.
  - intros _. vm_compute. discriminate.
  - vm_compute. reflexivity.
  - vm_compute. reflexivity.
Defined.

(** ** Password rules only ask for more *)

Lemma length_append (s t : string) :
  String.length (s ++ t) = String.length s + String.length t.
Proof.
  induction s as [|c s IH]; [reflexivity|]. rewrite append_cons. simpl. by rewrite IH.
Qed.

Lemma failing_min_mono (m m' : nat) (bound : option Z) :
  m <= m' -> failing_min m bound = false -> failing_min m' bound = false.
Proof.
  unfold failing_min. destruct bound as [n|]; [|reflexivity].
  rewrite !andb_false_iff, !Z.ltb_ge. intros Hle [H|H]; [by left | right; lia].
Qed.

Lemma first_failure_password_none field s :
  first_failure (password_checks field s) = None ↔
  failing_min (String.length s) (minLength field) = false
  ∧ failing_min (count_class (complement alnum) s) (minSpecialChars field) = false
  ∧ failing_min (count_class upper s) (minUppercase field) = false
  ∧ failing_min (count_class digit s) (minNumbers field) = false.
Proof.
  unfold password_checks, first_failure.
  destruct (failing_min (String.length s) (minLength field)),
    (failing_min (count_class (complement alnum) s) (minSpecialChars field)),
    (failing_min (count_class upper s) (minUppercase field)),
    (failing_min (count_class digit s) (minNumbers field));
    split; try discriminate; try (intros (? & ? & ? & ?); discriminate); auto.
Qed.

(** X25. The password rules are all lower bounds: a non-empty
    password that is accepted stays accepted when more characters are
    appended to it. *)
Theorem accepted_password_can_grow (config : gmap string FieldConfig)
    (vals : gmap string string) name field (s t : string) :
  config !! name = Some field -> type field = password -> s ≠ "" ->
  validateField config vals name (Some s) = Normal None ->
  validateField config vals name (Some (s ++ t)) = Normal None.
Proof.
  intros Hf Ht Hs Hok.
  assert (Hst : s ++ t ≠ "") by (by apply append_nonempty_l).
  rewrite (nonempty_dispatch config vals name field s Hf Hs), Ht,
    (passwordRules_first_failure field s Ht Hs) in Hok.
  rewrite (nonempty_dispatch config vals name field (s ++ t) Hf Hst), Ht,
    (passwordRules_first_failure field (s ++ t) Ht Hst).
  injection Hok as Hok. f_equal.
  apply first_failure_password_none in Hok as (H1 & H2 & H3 & H4).
  apply first_failure_password_none.
  rewrite length_append, !count_class_app.
  repeat split; eapply failing_min_mono; try eassumption; lia.
Qed.

Lemma accepted_password_can_grow_witness :
  validateField
    {[ "pw" := mkField password None None (Some 8%Z) None
                 (Some 1%Z) (Some 1%Z) (Some 2%Z) None ]}
    ∅ "pw" (Some ("Abcdef12!" ++ " and then some")) = Normal None.
Proof.
  apply (accepted_password_can_grow
           {[ "pw" := mkField password None None (Some 8%Z) None
                        (Some 1%Z) (Some 1%Z) (Some 2%Z) None ]}
           ∅ "pw"
           (mkField password None None (Some 8%Z) None (Some 1%Z) (Some 1%Z) (Some 2%Z) None)
           "Abcdef12!" " and then some").
  - reflexivity.
  - reflexivity.
  - discriminate.
  - vm_compute. reflexivity.
Defined.
